(** * PyPomes-Store: the MinIO facade of [pypomes_s3/minio_pomes.py]

    A shallow embedding of the module's functions, and the properties of
    its error-list discipline, not-found handling, folder deletion and
    pickled-object storage.

    Every function of the module receives a list [errors] that it mutates
    in place, talks to a remote store through a [Minio] client, and may let
    a Python exception escape.  The embedding threads the error list and
    the state of the world explicitly and returns, next to them, either
    the returned value or the exception that escaped. *)

From stdpp Require Import base strings list gmap fin_maps pretty.

Open Scope string_scope.
Open Scope list_scope.

(** ** Python values shared by the whole module *)

(** An exception instance.  [exn_code = None] stands for an exception
    without a [code] attribute ([hasattr(e, "code")] is false). *)
Record exn := Exn {
  exn_class : string;
  exn_code : option string;
  exn_text : string;
}.

(** The result of running a piece of Python code. *)
Inductive outcome (A : Type) : Type :=
  | Return (a : A)
  | Raise (e : exn).
Arguments Return {A} a.
Arguments Raise {A} e.

Definition bytes := list Byte.byte.

(** [minio.commonconfig.Tags] and the [dict] of tags: string keys, string values. *)
Abbreviation Tags := (gmap string string).

(** [minio.datatypes.Object], the descriptor returned by stat, get and list. *)
Record MinioObject := Object {
  bucket_name : string;
  object_name : string;
  object_size : N;
}.

(** What [list_objects] returns: a generator, read once, front to back.
    A [for] over it, or [next] on it, receives the descriptors of
    [yielded] in turn; when they are used up the generator raises
    [fault], if it has one, and stops otherwise.  The request to the
    service is made by the generator, not by the call that built it, so a
    listing that cannot be made (no such bucket, no connection) is an
    iterator that yields nothing and has a fault, and a listing that
    breaks on a later page has both. *)
Record Iterator := Listing {
  yielded : list MinioObject;
  fault : option exn;
}.

(** The test [not hasattr(e, "code") or e.code != "NoSuchKey"] guarding
    every report of an exception on get, stat, delete and tags. *)
Definition is_reported (e : exn) : bool :=
  match exn_code e with
  | None => true
  | Some c => negb (String.eqb c "NoSuchKey")
  end.

Definition TypeError (text : string) : exn := Exn "TypeError" None text.
Definition FileNotFoundError (path : string) : exn :=
  Exn "FileNotFoundError" None path.

(** What [pathlib] raises on [Path(basepath) / None], and what [next]
    raises on [None]. *)
Definition TypeError_truediv : exn :=
  TypeError "unsupported operand type(s) for /: 'PosixPath' and 'NoneType'".
Definition TypeError_next : exn :=
  TypeError "'NoneType' object is not an iterator".

(** ** The calls made on the client, as they are observed *)

Inductive call : Type :=
  | CallMinio
  | CallBucketExists (bucket : string)
  | CallMakeBucket (bucket : string)
  | CallFputObject (bucket object_name file_path content_type : string)
                   (tags : option Tags)
  | CallFgetObject (bucket object_name file_path : string)
  | CallStatObject (bucket object_name : string)
  | CallRemoveObject (bucket object_name : string)
  | CallGetObjectTags (bucket object_name : string)
  | CallListObjects (bucket prefix : string) (recursive : bool).

(** A call together with the exception it raised, if any. *)
Record event := Event {
  ev_call : call;
  ev_raised : option exn;
}.

Definition ev_ok (ev : event) : Prop := ev_raised ev = None.

(** The truth value of a result that is an object or [None]. *)
Definition is_Some_bool {A : Type} (o : option A) : bool :=
  match o with
  | Some _ => true
  | None => false
  end.

Definition raised_of {A : Type} (o : outcome A) : option exn :=
  match o with
  | Return _ => None
  | Raise e => Some e
  end.

(** ** The collaborators outside the module *)

(** The [minio] client library.  [Store] is the state of the remote
    service (and of the network), [Minio] the client handle.  Every
    method may raise and may change the remote state.  [fput_object]
    receives the contents of the local file it is asked to upload, [None]
    when that file does not exist; [fget_object] returns, with the
    descriptor, the bytes it writes to the local file.  [list_objects]
    returns an [Iterator]; the call itself may raise too, which is what
    the [try] of [_objects_list] guards, but what the iterator raises is
    raised where it is iterated.  What it yields is settled by the state
    of the service at the call.
    [Tags_refuses] is the exception with which [Tags.__setitem__] refuses
    a key and a value on the tags set so far, if it does. *)
Class MinioAPI (Store Minio : Type) := {
  Tags_refuses : Tags -> string -> string -> option exn;
  Minio_new : Store -> outcome Minio * Store;
  bucket_exists : Minio -> string -> Store -> outcome bool * Store;
  make_bucket : Minio -> string -> Store -> outcome unit * Store;
  fput_object : Minio -> string -> string -> option bytes -> string ->
                option Tags -> Store -> outcome unit * Store;
  fget_object : Minio -> string -> string -> Store ->
                outcome (MinioObject * bytes) * Store;
  stat_object : Minio -> string -> string -> Store ->
                outcome MinioObject * Store;
  remove_object : Minio -> string -> string -> Store -> outcome unit * Store;
  get_object_tags : Minio -> string -> string -> Store ->
                    outcome (option Tags) * Store;
  list_objects : Minio -> string -> string -> bool -> Store ->
                 outcome Iterator * Store;
}.

(** The Python runtime and the other libraries: [pickle], [unidecode],
    [pathlib], [uuid] and the configuration read through [_s3_get_param].
    [Any] is the type of the Python values that are stored. *)
Class Host (Any : Type) := {
  py_None : Any;
  py_truth : Any -> bool;
  pickle_dump : Any -> outcome bytes;
  pickle_load : bytes -> outcome Any;
  unidecode : string -> string;
  path_join : string -> string -> string;
  temp_folder : string;
  uuid4 : nat -> string;
  except_msg : exn -> string -> string;
}.

Section Facade.

Context {Store Minio Any : Type} `{!MinioAPI Store Minio} `{!Host Any}.

(** ** The state of the world *)

(** The remote store, the local file system (temporary files of the
    pickled objects), the source of [uuid.uuid4()] and the calls made on
    the client so far.  The local file system is a map from paths to
    contents: the temporary folder is there and can be written. *)
Record World := mkWorld {
  remote : Store;
  files : gmap string bytes;
  uuid_seed : nat;
  trace : list event;
}.

(** What a function leaves behind: returned value or escaped exception,
    the error list as mutated, the world as changed. *)
Record result (A : Type) := Result {
  value : outcome A;
  errors_after : list string;
  world_after : World;
}.
Arguments Result {A} value errors_after world_after.
Arguments value {A} r.
Arguments errors_after {A} r.
Arguments world_after {A} r.

(** A computation reads and mutates the list [errors] it was given. *)
Definition M (A : Type) : Type := list string -> World -> result A.

Definition ret {A : Type} (a : A) : M A :=
  fun errors w => Result (Return a) errors w.

Definition raise {A : Type} (e : exn) : M A :=
  fun errors w => Result (Raise e) errors w.

Definition bind {A B : Type} (m : M A) (k : A -> M B) : M B :=
  fun errors w =>
    match m errors w with
    | Result (Return a) errors' w' => k a errors' w'
    | Result (Raise e) errors' w' => Result (Raise e) errors' w'
    end.

(** A piece of code that touches neither the error list nor the world. *)
Definition lift {A : Type} (o : outcome A) : M A :=
  fun errors w => Result o errors w.

(** [try: body except Exception as e: handler]. *)
Definition try_except {A : Type} (body : M A) (handler : exn -> M A) : M A :=
  fun errors w =>
    match body errors w with
    | Result (Return a) errors' w' => Result (Return a) errors' w'
    | Result (Raise e) errors' w' => handler e errors' w'
    end.

(** Runs [m] on a list of its own, as [op_errors: list[str] = []] does,
    and hands that list back; the caller's list is not touched. *)
Definition with_errors {A : Type} (op_errors : list string) (m : M A)
  : M (A * list string) :=
  fun errors w =>
    match m op_errors w with
    | Result (Return a) op_errors' w' => Result (Return (a, op_errors')) errors w'
    | Result (Raise e) _ w' => Result (Raise e) errors w'
    end.

(** [errors.extend(more)]. *)
Definition errors_extend (more : list string) : M unit :=
  fun errors w => Result (Return tt) (errors ++ more) w.

Notation "'let!' x ':=' m 'in' k" := (bind m (fun x => k))
  (at level 10, x name, m at level 100, k at level 200,
   format "'[v' 'let!'  x  ':='  m  'in' '/' k ']'").
Notation "m ;; k" := (bind m (fun _ => k))
  (at level 100, k at level 200, right associativity).

(** [for x in xs: body]. *)
Fixpoint for_each {B : Type} (xs : list B) (body : B -> M unit) : M unit :=
  match xs with
  | [] => ret tt
  | x :: xs' => body x ;; for_each xs' body
  end.

(** A call on the client: the remote state moves, the call is recorded. *)
Definition client_call {A : Type} (c : call)
    (op : Store -> outcome A * Store) : M A :=
  fun errors w =>
    let '(o, s) := op (remote w) in
    Result o errors
      (mkWorld s (files w) (uuid_seed w) (trace w ++ [Event c (raised_of o)])).

(** ** Helpers of [s3_common], absent from the sources *)

(** Modelled from the spec: [_s3_except_msg] of [s3_common] is not among
    the sources; "a caught lower-level exception re-rendered as a
    descriptive string and appended to the caller-supplied error list". *)
Definition _s3_except_msg (exception : exn) (engine : string) : M unit :=
  fun errors w => Result (Return tt) (errors ++ [except_msg exception engine]) w.

(** Modelled from the spec: [_s3_log] of [s3_common] is not among the
    sources; logging is outside the scope of the layer and leaves the
    error list and the world as they are. *)
Definition _s3_log (stmt : string) : M unit := ret tt.

(** ** Python built-ins and library calls used by the module *)

(** [Path(basepath) / identifier], rendered by [f"{remotepath}"].
    [pathlib] refuses a [None] operand. *)
Definition path_div (basepath : string) (identifier : option string) : M string :=
  match identifier with
  | Some name => ret (path_join basepath name)
  | None => raise TypeError_truediv
  end.

(** [next(objs, None)] on what [_objects_list] returned: an iterator, or
    [None].  The default [None] answers an iterator that stops, not one
    that raises. *)
Definition py_next (objs : option Iterator) : M (option MinioObject) :=
  match objs with
  | None => raise TypeError_next
  | Some it =>
      match yielded it, fault it with
      | obj :: _, _ => ret (Some obj)
      | [], None => ret None
      | [], Some e => raise e
      end
  end.

(** [for obj in objs: body] over an iterator: the body runs on each
    descriptor yielded, then the fault of the iterator, if any, is raised
    in the place of the loop. *)
Definition for_iterator (objs : Iterator) (body : MinioObject -> M unit) : M unit :=
  for_each (yielded objs) body ;;
  match fault objs with
  | Some e => raise e
  | None => ret tt
  end.

(** [uuid.uuid4()]. *)
Definition uuid_uuid4 : M string :=
  fun errors w =>
    Result (Return (uuid4 (uuid_seed w))) errors
      (mkWorld (remote w) (files w) (S (uuid_seed w)) (trace w)).

(** [with filepath.open("wb") as f: pickle.dump(obj, f)]: the file is
    created or truncated, then receives the pickled bytes. *)
Definition open_wb_pickle_dump (filepath : string) (obj : Any) : M unit :=
  fun errors w =>
    match pickle_dump obj with
    | Return data =>
        Result (Return tt) errors
          (mkWorld (remote w) (<[filepath := data]> (files w)) (uuid_seed w) (trace w))
    | Raise e =>
        Result (Raise e) errors
          (mkWorld (remote w) (<[filepath := []]> (files w)) (uuid_seed w) (trace w))
    end.

(** [with filepath.open("rb") as f: result = pickle.load(f)]. *)
Definition open_rb_pickle_load (filepath : string) : M Any :=
  fun errors w =>
    match files w !! filepath with
    | None => Result (Raise (FileNotFoundError filepath)) errors w
    | Some data => Result (pickle_load data) errors w
    end.

(** [filepath.unlink()]. *)
Definition unlink (filepath : string) : M unit :=
  fun errors w =>
    match files w !! filepath with
    | None => Result (Raise (FileNotFoundError filepath)) errors w
    | Some _ =>
        Result (Return tt) errors
          (mkWorld (remote w) (delete filepath (files w)) (uuid_seed w) (trace w))
    end.

(** [curr_client.fput_object(...)]: the client reads the local file. *)
Definition client_fput_object (client : Minio)
    (bucket object_name file_path content_type : string)
    (tags : option Tags) : M unit :=
  fun errors w =>
    client_call (CallFputObject bucket object_name file_path content_type tags)
      (fput_object client bucket object_name (files w !! file_path)
         content_type tags)
      errors w.

(** [curr_client.fget_object(...)]: the client writes the local file. *)
Definition client_fget_object (client : Minio)
    (bucket object_name file_path : string) : M MinioObject :=
  let! got := client_call (CallFgetObject bucket object_name file_path)
                (fget_object client bucket object_name) in
  fun errors w =>
    Result (Return (fst got)) errors
      (mkWorld (remote w) (<[file_path := snd got]> (files w)) (uuid_seed w)
         (trace w)).

(** The rendering of a [dict] of tags inside a log statement. *)
Definition repr_tags (tags : option Tags) : string :=
  match tags with
  | None => "None"
  | Some tags =>
      "{" +:+ String.concat ", "
               (map (fun '(key, value) => "'" +:+ key +:+ "': '" +:+ value +:+ "'")
                  (map_to_list tags)) +:+ "}"
  end.

(** ** The functions of [minio_pomes.py] *)

(** [_access] (lines 17-46).  The parameters read by [_s3_get_params]
    are those [Minio_new] is constructed from. *)
Definition _access : M (option Minio) :=
  try_except
    (let! result := client_call CallMinio Minio_new in
     _s3_log "Minio client created" ;;
     ret (Some result))
    (fun e => _s3_except_msg e "minio" ;; ret None).

(** [client or _access(errors=errors, logger=logger)]. *)
Definition client_or_access (client : option Minio) : M (option Minio) :=
  match client with
  | Some client => ret (Some client)
  | None => _access
  end.

(** [_startup] (lines 49-84). *)
Definition _startup (bucket : string) : M bool :=
  let! client := _access in
  match client with
  | Some client =>
      try_except
        (let! found := client_call (CallBucketExists bucket)
                         (bucket_exists client bucket) in
         (if negb found
          then client_call (CallMakeBucket bucket) (make_bucket client bucket)
          else ret tt) ;;
         _s3_log ("Started MinIO, bucket=" +:+ bucket) ;;
         ret true)
        (fun e => _s3_except_msg e "minio" ;; ret false)
  | None => ret false
  end.

(** [for key, value in items: doc_tags[key] = unidecode(value)]: every
    value goes through [unidecode]; an entry that [Tags] refuses ends the
    loop with its exception. *)
Fixpoint set_items (items : list (string * string)) (doc_tags : Tags)
  : outcome Tags :=
  match items with
  | [] => Return doc_tags
  | (key, value) :: rest =>
      match Tags_refuses doc_tags key (unidecode value) with
      | Some e => Raise e
      | None => set_items rest (<[key := unidecode value]> doc_tags)
      end
  end.

(** The tags handed to the store: [None] when [tags is None or
    len(tags) == 0], else a [Tags(for_object=True)] filled from
    [tags.items()].  The keys of a [dict] are distinct, so the order in
    which the items come only decides which refusal is met first. *)
Definition doc_tags_of (tags : option Tags) : outcome (option Tags) :=
  match tags with
  | None => Return None
  | Some tags =>
      if Nat.eqb (size tags) 0 then Return None
      else match set_items (map_to_list tags) ∅ with
           | Return doc_tags => Return (Some doc_tags)
           | Raise e => Raise e
           end
  end.

(** [_file_store] (lines 87-146).  The tags are built before the [try]:
    a refusal of [Tags] escapes. *)
Definition _file_store (bucket basepath identifier filepath mimetype : string)
    (tags : option Tags) (client : option Minio) : M bool :=
  let! curr_client := client_or_access client in
  match curr_client with
  | Some curr_client =>
      let remotepath := path_join basepath identifier in
      let! doc_tags := lift (doc_tags_of tags) in
      try_except
        (client_fput_object curr_client bucket remotepath filepath mimetype
           doc_tags ;;
         _s3_log ("Stored " +:+ remotepath +:+ ", bucket " +:+ bucket +:+
                  ", content type " +:+ mimetype +:+ ", tags " +:+ repr_tags tags) ;;
         ret true)
        (fun e => _s3_except_msg e "minio" ;; ret false)
  | None => ret false
  end.

(** [_file_retrieve] (lines 149-190). *)
Definition _file_retrieve (bucket basepath identifier filepath : string)
    (client : option Minio) : M (option MinioObject) :=
  let! curr_client := client_or_access client in
  match curr_client with
  | Some curr_client =>
      let remotepath := path_join basepath identifier in
      try_except
        (let! result := client_fget_object curr_client bucket remotepath
                          filepath in
         _s3_log ("Retrieved " +:+ remotepath +:+ ", bucket " +:+ bucket) ;;
         ret (Some result))
        (fun e =>
           (if is_reported e then _s3_except_msg e "minio" else ret tt) ;;
           ret None)
  | None => ret None
  end.

(** [_object_stat] (lines 245-283). *)
Definition _object_stat (bucket basepath identifier : string)
    (client : option Minio) : M (option MinioObject) :=
  let! curr_client := client_or_access client in
  match curr_client with
  | Some curr_client =>
      let remotepath := path_join basepath identifier in
      try_except
        (let! result := client_call (CallStatObject bucket remotepath)
                          (stat_object curr_client bucket remotepath) in
         _s3_log ("Stat'ed " +:+ remotepath +:+ ", bucket " +:+ bucket) ;;
         ret (Some result))
        (fun e =>
           (if is_reported e then _s3_except_msg e "minio" else ret tt) ;;
           ret None)
  | None => ret None
  end.

(** [_objects_list] (lines 499-537). *)
Definition _objects_list (bucket basepath : string) (recursive : bool)
    (client : option Minio) : M (option Iterator) :=
  let! curr_client := client_or_access client in
  match curr_client with
  | Some curr_client =>
      try_except
        (let! result := client_call (CallListObjects bucket basepath recursive)
                          (list_objects curr_client bucket basepath recursive) in
         _s3_log ("Listed " +:+ basepath +:+ ", bucket " +:+ bucket) ;;
         ret (Some result))
        (fun e => _s3_except_msg e "minio" ;; ret None)
  | None => ret None
  end.

(** The body of the loop of [__folder_delete]. *)
Definition folder_delete_step (bucket basepath : string) (client : Minio)
    (obj : MinioObject) : M unit :=
  try_except
    (client_call (CallRemoveObject bucket (object_name obj))
       (remove_object client bucket (object_name obj)) ;;
     _s3_log ("Removed folder " +:+ basepath +:+ ", bucket " +:+ bucket))
    (fun e => if is_reported e then _s3_except_msg e "minio" else ret tt).

(** [__folder_delete] (lines 540-575).  The listing is requested without
    [client=]: [_objects_list] obtains a client of its own; the removals
    go through the client received.  [if objs:] holds of every iterator;
    the loop over it is inside no [try]. *)
Definition __folder_delete (bucket basepath : string) (client : Minio) : M unit :=
  let! objs := _objects_list bucket basepath true None in
  match objs with
  | Some objs => for_iterator objs (folder_delete_step bucket basepath client)
  | None => ret tt
  end.

(** The folder branch of [_object_exists]:
    [result = next(objs, None) is None]. *)
Definition folder_check (bucket basepath : string) (curr_client : Minio) : M bool :=
  let! objs := _objects_list bucket basepath false (Some curr_client) in
  let! first := py_next objs in
  ret (match first with
       | None => true
       | Some _ => false
       end).

(** [_object_exists] (lines 193-242).  The join of line 237 comes after
    both branches, whatever the identifier. *)
Definition _object_exists (bucket basepath : string)
    (identifier : option string) (client : option Minio) : M bool :=
  let! curr_client := client_or_access client in
  match curr_client with
  | Some curr_client =>
      let! result :=
        match identifier with
        | None => folder_check bucket basepath curr_client
        | Some name =>
            let! stat := _object_stat bucket basepath name (Some curr_client) in
            ret (match stat with
                 | Some _ => true
                 | None => false
                 end)
        end in
      let! remotepath := path_div basepath identifier in
      let existence := if result : bool then "exists" else "do not exist" in
      _s3_log ("Object " +:+ remotepath +:+ ", bucket " +:+ bucket +:+ ", " +:+
               existence) ;;
      ret result
  | None => ret false
  end.

(** [temp_folder / f"{uuid.uuid4()}.pickle"]. *)
Definition temp_filepath : M string :=
  let! uid := uuid_uuid4 in
  ret (path_join temp_folder (uid +:+ ".pickle")).

(** [_object_store] (lines 286-348). *)
Definition _object_store (bucket basepath identifier : string) (obj : Any)
    (tags : option Tags) (client : option Minio) : M bool :=
  let! curr_client := client_or_access client in
  match curr_client with
  | Some curr_client =>
      let! filepath := temp_filepath in
      open_wb_pickle_dump filepath obj ;;
      let! stored := with_errors []
                       (_file_store bucket basepath identifier filepath
                          "application/octet-stream" tags (Some curr_client)) in
      let op_errors := snd stored in
      let! result :=
        match op_errors with
        | _ :: _ => errors_extend op_errors ;; ret (false, "Unable to store")
        | [] => unlink filepath ;; ret (true, "Stored ")
        end in
      let remotepath := path_join basepath identifier in
      _s3_log (snd result +:+ " " +:+ remotepath +:+ ", bucket " +:+ bucket) ;;
      ret (fst result)
  | None => ret false
  end.

(** [_object_retrieve] (lines 351-399). *)
Definition _object_retrieve (bucket basepath identifier : string)
    (client : option Minio) : M Any :=
  let! curr_client := client_or_access client in
  match curr_client with
  | Some curr_client =>
      let! filepath := temp_filepath in
      let! stat := _file_retrieve bucket basepath identifier filepath
                     (Some curr_client) in
      let! result :=
        match stat with
        | Some _ =>
            let! loaded := open_rb_pickle_load filepath in
            unlink filepath ;;
            ret loaded
        | None => ret py_None
        end in
      let retrieval := if py_truth result then "Retrieved"
                       else "Unable to retrieve" in
      let remotepath := path_join basepath identifier in
      _s3_log (retrieval +:+ " " +:+ remotepath +:+ ", bucket " +:+ bucket) ;;
      ret result
  | None => ret py_None
  end.

(** [_object_delete] (lines 402-450).  [result] is assigned in the
    branch of the single object only. *)
Definition _object_delete (bucket basepath : string)
    (identifier : option string) (client : option Minio) : M bool :=
  let! curr_client := client_or_access client in
  match curr_client with
  | Some curr_client =>
      match identifier with
      | None =>
          __folder_delete bucket basepath curr_client ;;
          ret false
      | Some name =>
          let remotepath := path_join basepath name in
          try_except
            (client_call (CallRemoveObject bucket remotepath)
               (remove_object curr_client bucket remotepath) ;;
             _s3_log ("Deleted " +:+ remotepath +:+ ", bucket " +:+ bucket) ;;
             ret true)
            (fun e =>
               (if is_reported e then _s3_except_msg e "minio" else ret tt) ;;
               ret false)
      end
  | None => ret false
  end.

(** The copy [result = {}; for key, value in tags.items(): result[key] = value],
    made when [tags and len(tags) > 0]. *)
Definition tags_to_dict (tags : option Tags) : option Tags :=
  match tags with
  | Some tags =>
      if Nat.ltb 0 (size tags)
      then Some (map_fold
                   (fun key value (result : Tags) => <[key := value]> result)
                   ∅ tags)
      else None
  | None => None
  end.

(** [_object_tags_retrieve] (lines 453-496). *)
Definition _object_tags_retrieve (bucket basepath identifier : string)
    (client : option Minio) : M (option Tags) :=
  let! curr_client := client_or_access client in
  match curr_client with
  | Some curr_client =>
      let remotepath := path_join basepath identifier in
      try_except
        (let! tags := client_call (CallGetObjectTags bucket remotepath)
                        (get_object_tags curr_client bucket remotepath) in
         let result := tags_to_dict tags in
         _s3_log ("Retrieved " +:+ remotepath +:+ ", bucket " +:+ bucket +:+
                  ", tags " +:+ repr_tags result) ;;
         ret result)
        (fun e =>
           (if is_reported e then _s3_except_msg e "minio" else ret tt) ;;
           ret None)
  | None => ret None
  end.

(** ** Reference definitions for the statements *)

(** What one recorded call contributes to the error list under the
    not-found rule: its rendering when it raised anything but [NoSuchKey]. *)
Definition report_of (ev : event) : list string :=
  match ev_raised ev with
  | Some e => if is_reported e then [except_msg e "minio"] else []
  | None => []
  end.

Definition reports_of (evs : list event) : list string :=
  flat_map report_of evs.

(** The calls that raised something other than [NoSuchKey]. *)
Definition is_failure (ev : event) : bool :=
  match ev_raised ev with
  | Some e => is_reported e
  | None => false
  end.

(** One [remove_object] per descriptor, in the order of the listing, each
    on the remote state the previous one left. *)
Fixpoint removals (client : Minio) (bucket : string)
    (objs : list MinioObject) (s : Store) : list event * Store :=
  match objs with
  | [] => ([], s)
  | obj :: rest =>
      let '(o, s') := remove_object client bucket (object_name obj) s in
      let '(evs, s'') := removals client bucket rest s' in
      (Event (CallRemoveObject bucket (object_name obj)) (raised_of o) :: evs,
       s'')
  end.

(** The error list and the record of calls only grow. *)
Definition extends {A : Type} (m : M A) : Prop :=
  forall errors w, exists added evs,
    errors_after (m errors w) = errors ++ added /\
    trace (world_after (m errors w)) = trace w ++ evs.

(** They only grow, and nothing is appended to the error list unless one
    of the calls made on the client raised. *)
Definition appends_only {A : Type} (m : M A) : Prop :=
  forall errors w, exists added evs,
    errors_after (m errors w) = errors ++ added /\
    trace (world_after (m errors w)) = trace w ++ evs /\
    (Forall ev_ok evs -> added = []).

(** Nothing has been appended when the function returns a value that
    [success] accepts: [True], or a result that is not [None]. *)
Definition quiet_on {A : Type} (success : A -> bool) (m : M A) : Prop :=
  forall errors w a,
    value (m errors w) = Return a -> success a = true ->
    errors_after (m errors w) = errors.

(** Nothing is appended at all, and an exception escapes only when one of
    the calls made on the client raised: what the body of every [try] of
    the module satisfies. *)
Definition blames_client {A : Type} (m : M A) : Prop :=
  forall errors w, exists evs,
    errors_after (m errors w) = errors /\
    trace (world_after (m errors w)) = trace w ++ evs /\
    (forall e, value (m errors w) = Raise e -> ~ Forall ev_ok evs).

(** ** Reference definitions for what a function touches *)

(** The method of the client behind a recorded call. *)
Definition call_name (c : call) : string :=
  match c with
  | CallMinio => "Minio"
  | CallBucketExists _ => "bucket_exists"
  | CallMakeBucket _ => "make_bucket"
  | CallFputObject _ _ _ _ _ => "fput_object"
  | CallFgetObject _ _ _ => "fget_object"
  | CallStatObject _ _ => "stat_object"
  | CallRemoveObject _ _ => "remove_object"
  | CallGetObjectTags _ _ => "get_object_tags"
  | CallListObjects _ _ _ => "list_objects"
  end.

(** The construction of a client that [client or _access(...)] needs. *)
Definition access_names (client : option Minio) : list string :=
  match client with
  | Some _ => []
  | None => ["Minio"]
  end.

(** Whatever the list of errors, the world a function leaves is related
    by [R] to the world it found. *)
Definition steps (R : World -> World -> Prop) {A : Type} (m : M A) : Prop :=
  forall errors w, R w (world_after (m errors w)).

(** The calls made in between are calls of the methods [names]. *)
Definition calls_among (names : list string) (w w' : World) : Prop :=
  exists evs,
    trace w' = trace w ++ evs /\
    Forall (fun ev => call_name (ev_call ev) ∈ names) evs.

(** The local files and the source of [uuid4] are as they were. *)
Definition same_local (w w' : World) : Prop :=
  files w' = files w /\ uuid_seed w' = uuid_seed w.

(** [R] holds across a call [k] on the client, whatever it answers. *)
Definition allows_call (R : World -> World -> Prop) (k : call) : Prop :=
  forall w s raised,
    R w (mkWorld s (files w) (uuid_seed w) (trace w ++ [Event k raised])).

(** [R] holds across every call of the method [method]. *)
Definition allows_name (R : World -> World -> Prop) (method : string) : Prop :=
  forall k, call_name k = method -> allows_call R k.

(** [R] holds across a change of the local files and of the source of
    [uuid4]. *)
Definition allows_local (R : World -> World -> Prop) : Prop :=
  forall w fs n, R w (mkWorld (remote w) fs n (trace w)).

End Facade.

Arguments World : clear implicits.
Arguments result : clear implicits.
Arguments M : clear implicits.
Arguments Result {Store A} value errors_after world_after.
Arguments value {Store A} r.
Arguments errors_after {Store A} r.
Arguments world_after {Store A} r.

(** ** An in-memory store and a small runtime

    A client whose remote state is a map from bucket names to the objects
    they hold.  Writing to, or removing, a name listed in [denied] is
    refused, and removing a name that is not there is reported with the
    code [NoSuchKey], the answer the module guards against.  A listing
    always returns its iterator; in a bucket that is not there the
    iterator raises when it is first read.  Its [Tags] take ten entries,
    keys of 1 to 128 characters and values of at most 256. *)
Module Memory.

Record entry := Entry {
  entry_data : bytes;
  entry_type : string;
  entry_tags : option Tags;
}.

Record store := Mem {
  online : bool;
  buckets : gmap string (gmap string entry);
  denied : list string;
}.

Definition S3Error (code : string) : exn := Exn "S3Error" (Some code) code.

Definition with_buckets (s : store) (b : gmap string (gmap string entry)) : store :=
  Mem (online s) b (denied s).

Definition is_denied (s : store) (name : string) : bool :=
  bool_decide (name ∈ denied s).

(** A name is listed under [prefix] when it starts with it; without
    [recursive], only when nothing below a further [/] follows. *)
Fixpoint has_slash (text : string) : bool :=
  match text with
  | EmptyString => false
  | String c rest => if Nat.eqb (Ascii.nat_of_ascii c) 47 then true else has_slash rest
  end.

Fixpoint remainder (prefix name : string) : option string :=
  match prefix, name with
  | EmptyString, _ => Some name
  | String p prefix', String c name' =>
      if Ascii.eqb p c then remainder prefix' name' else None
  | String _ _, EmptyString => None
  end.

Definition listed (prefix : string) (recursive : bool) (name : string) : bool :=
  match remainder prefix name with
  | Some rest => recursive || negb (has_slash rest)
  | None => false
  end.

Definition describe (bucket : string) (item : string * entry) : MinioObject :=
  Object bucket (fst item) (N.of_nat (length (entry_data (snd item)))).

Definition ValueError (text : string) : exn := Exn "ValueError" None text.

#[global] Instance api : MinioAPI store unit := {
  Tags_refuses doc_tags key value :=
    if Nat.leb 10 (size doc_tags)
    then Some (ValueError "only 10 object tags are allowed")
    else if Nat.eqb (String.length key) 0 || Nat.ltb 128 (String.length key)
    then Some (ValueError "invalid tag key")
    else if Nat.ltb 256 (String.length value)
    then Some (ValueError "invalid tag value")
    else None;
  Minio_new s :=
    if online s then (Return tt, s)
    else (Raise (ValueError "invalid endpoint"), s);
  bucket_exists _ bucket s :=
    (Return (bool_decide (is_Some (buckets s !! bucket))), s);
  make_bucket _ bucket s :=
    match buckets s !! bucket with
    | Some _ => (Raise (S3Error "BucketAlreadyOwnedByYou"), s)
    | None => (Return tt, with_buckets s (<[bucket := ∅]> (buckets s)))
    end;
  fput_object _ bucket name content content_type tags s :=
    match content, buckets s !! bucket with
    | None, _ => (Raise (FileNotFoundError name), s)
    | Some _, None => (Raise (S3Error "NoSuchBucket"), s)
    | Some data, Some objs =>
        if is_denied s name then (Raise (S3Error "AccessDenied"), s)
        else (Return tt,
              with_buckets s
                (<[bucket := <[name := Entry data content_type tags]> objs]>
                   (buckets s)))
    end;
  fget_object _ bucket name s :=
    match buckets s !! bucket with
    | None => (Raise (S3Error "NoSuchBucket"), s)
    | Some objs =>
        match objs !! name with
        | None => (Raise (S3Error "NoSuchKey"), s)
        | Some e => (Return (describe bucket (name, e), entry_data e), s)
        end
    end;
  stat_object _ bucket name s :=
    match buckets s !! bucket with
    | None => (Raise (S3Error "NoSuchBucket"), s)
    | Some objs =>
        match objs !! name with
        | None => (Raise (S3Error "NoSuchKey"), s)
        | Some e => (Return (describe bucket (name, e)), s)
        end
    end;
  remove_object _ bucket name s :=
    match buckets s !! bucket with
    | None => (Raise (S3Error "NoSuchBucket"), s)
    | Some objs =>
        if is_denied s name then (Raise (S3Error "AccessDenied"), s)
        else match objs !! name with
             | None => (Raise (S3Error "NoSuchKey"), s)
             | Some _ =>
                 (Return tt,
                  with_buckets s (<[bucket := delete name objs]> (buckets s)))
             end
    end;
  get_object_tags _ bucket name s :=
    match buckets s !! bucket with
    | None => (Raise (S3Error "NoSuchBucket"), s)
    | Some objs =>
        match objs !! name with
        | None => (Raise (S3Error "NoSuchKey"), s)
        | Some e => (Return (entry_tags e), s)
        end
    end;
  list_objects _ bucket prefix recursive s :=
    (Return
       match buckets s !! bucket with
       | None => Listing [] (Some (S3Error "NoSuchBucket"))
       | Some objs =>
           Listing
             (map (describe bucket)
                (filter (fun item => listed prefix recursive (fst item) = true)
                   (map_to_list objs)))
             None
       end, s);
}.

(** The values that are pickled: [None] and text. *)
Inductive pyval : Type :=
  | PyNone
  | PyStr (text : string).

Definition bytes_of_string (text : string) : bytes :=
  map Ascii.byte_of_ascii (String.list_ascii_of_string text).

Definition string_of_bytes (data : bytes) : string :=
  String.string_of_list_ascii (map Ascii.ascii_of_byte data).

Definition dump (v : pyval) : bytes :=
  match v with
  | PyNone => [Byte.x4e]
  | PyStr text => Byte.x53 :: bytes_of_string text
  end.

Definition load (data : bytes) : outcome pyval :=
  match data with
  | [Byte.x4e] => Return PyNone
  | Byte.x53 :: rest => Return (PyStr (string_of_bytes rest))
  | _ => Raise (Exn "UnpicklingError" None "invalid load key")
  end.

(** [unidecode] on ASCII and on the letters U+00C0 to U+00FF, which UTF-8
    writes as the byte 195 followed by a byte from 128 to 191. *)
Definition latin1_letter (second : nat) : string :=
  let table :=
    ["A"; "A"; "A"; "A"; "A"; "A"; "AE"; "C"; "E"; "E"; "E"; "E"; "I"; "I";
     "I"; "I"; "D"; "N"; "O"; "O"; "O"; "O"; "O"; "x"; "O"; "U"; "U"; "U";
     "U"; "Y"; "Th"; "ss"; "a"; "a"; "a"; "a"; "a"; "a"; "ae"; "c"; "e"; "e";
     "e"; "e"; "i"; "i"; "i"; "i"; "d"; "n"; "o"; "o"; "o"; "o"; "o"; "/";
     "o"; "u"; "u"; "u"; "u"; "y"; "th"; "y"] in
  default "" (table !! (second - 128)).

Fixpoint unidecode_latin1 (text : string) : string :=
  match text with
  | EmptyString => EmptyString
  | String c rest =>
      if Nat.eqb (Ascii.nat_of_ascii c) 195 then
        match rest with
        | EmptyString => EmptyString
        | String d rest' =>
            latin1_letter (Ascii.nat_of_ascii d) +:+ unidecode_latin1 rest'
        end
      else String c (unidecode_latin1 rest)
  end.

#[global] Instance host : Host pyval := {
  py_None := PyNone;
  py_truth v := match v with
                | PyNone => false
                | PyStr text => negb (String.eqb text "")
                end;
  pickle_dump v := Return (dump v);
  pickle_load := load;
  unidecode := unidecode_latin1;
  path_join base name := base +:+ "/" +:+ name;
  temp_folder := "/tmp";
  uuid4 n := "uuid-" +:+ pretty n;
  except_msg e engine :=
    "Error accessing '" +:+ engine +:+ "': " +:+ exn_text e;
}.

Definition world (s : store) : World store := mkWorld s ∅ 0 [].

(** A store with the bucket [docs] holding two reports and a note. *)
Definition report : entry :=
  Entry (bytes_of_string "q1") "application/pdf" (Some {["author" := "Jose"]}).

Definition docs : store :=
  Mem true
    {["docs" := {["reports/2024/q1.pdf" := report;
                  "reports/2024/q2.pdf" := report;
                  "notes.txt" := report]} ]}
    ["reports/2024/q2.pdf"].

(** The same store seen from a machine that holds a local copy of the
    first report. *)
Definition desk : World store :=
  mkWorld docs {["/tmp/q1.pdf" := bytes_of_string "q1"]} 0 [].

End Memory.

(** ** Further stores and values for the examples *)
Module Cases.

(** The store of the reports when no client can be constructed. *)
Definition offline : Memory.store :=
  Memory.Mem false (Memory.buckets Memory.docs) (Memory.denied Memory.docs).

(** A store without any bucket. *)
Definition blank : Memory.store := Memory.Mem true ∅ [].

(** The bucket [docs] with a note that carries no tags and a value that
    is not a pickle. *)
Definition plain : Memory.store :=
  Memory.Mem true
    {["docs" := {["notes.txt" :=
                    Memory.Entry (Memory.bytes_of_string "n") "text/plain" None;
                  "vals/bad" :=
                    Memory.Entry (Memory.bytes_of_string "?")
                      "application/octet-stream" None]} ]}
    [].

(** Eleven tags, one more than [Tags] takes for an object. *)
Definition eleven : Tags :=
  list_to_map
    [("a", "1"); ("b", "2"); ("c", "3"); ("d", "4"); ("e", "5"); ("f", "6");
     ("g", "7"); ("h", "8"); ("i", "9"); ("j", "10"); ("k", "11")].

End Cases.

(** * Properties *)

Section Properties.

Context {Store Minio Any : Type} `{!MinioAPI Store Minio} `{!Host Any}.

Implicit Types (errors : list string) (w : World Store) (c : Minio).
Implicit Types (bucket basepath name : string) (client : option Minio).

(** ** Running computations *)

Lemma bind_return {A B : Type} (m : M Store A) (k : A -> M Store B)
    errors w a errors' w' :
  m errors w = Result (Return a) errors' w' ->
  bind m k errors w = k a errors' w'.
Proof. intros Hm. unfold bind. now rewrite Hm. Qed.

Lemma result_eta {A : Type} (r : result Store A) :
  r = Result (value r) (errors_after r) (world_after r).
Proof. now destruct r. Qed.

(** Obtaining the client: a client received is used as it is, and when
    one is obtained nothing has been appended. *)
Lemma client_or_access_obtained client errors w c :
  value (client_or_access client errors w) = Return (Some c) ->
  client_or_access client errors w =
    Result (Return (Some c)) errors
      (world_after (client_or_access client errors w)).
Proof.
  destruct client as [c'|]; cbn.
  - intros [= ->]. reflexivity.
  - unfold _access, try_except, bind, client_call, _s3_log, _s3_except_msg, ret.
    destruct (Minio_new (remote w)) as [[m|e] s]; cbn.
    + intros [= ->]. reflexivity.
    + intros [=].
Qed.

Lemma bind_run {A B : Type} (m : M Store A) (k : A -> M Store B) errors w :
  bind m k errors w =
    match value (m errors w) with
    | Return a => k a (errors_after (m errors w)) (world_after (m errors w))
    | Raise e =>
        Result (Raise e) (errors_after (m errors w)) (world_after (m errors w))
    end.
Proof. unfold bind. now destruct (m errors w) as [[a|e] errors' w']. Qed.

(** Obtaining the client never lets an exception escape. *)
Lemma client_or_access_returns client errors w :
  exists found, value (client_or_access client errors w) = Return found.
Proof.
  destruct client as [c|]; cbn; [now eexists|].
  unfold _access, try_except, bind, client_call, _s3_log, _s3_except_msg, ret.
  destruct (Minio_new (remote w)) as [[m|e] s]; cbn; now eexists.
Qed.

(** ** The not-found rule *)

Lemma is_reported_false (e : exn) :
  is_reported e = false <-> exn_code e = Some "NoSuchKey".
Proof.
  unfold is_reported. destruct (exn_code e) as [code|]; [|easy].
  rewrite negb_false_iff, String.eqb_eq. split; congruence.
Qed.

Lemma is_reported_true (e : exn) :
  is_reported e = true <-> exn_code e <> Some "NoSuchKey".
Proof.
  rewrite <- is_reported_false. destruct (is_reported e); easy.
Qed.

Lemma reports_of_not_found (c : call) (e : exn) :
  exn_code e = Some "NoSuchKey" -> reports_of [Event c (Some e)] = [].
Proof.
  intros Hcode. apply is_reported_false in Hcode.
  unfold reports_of, report_of; cbn. now rewrite Hcode.
Qed.

Lemma reports_of_other (c : call) (e : exn) :
  exn_code e <> Some "NoSuchKey" ->
  reports_of [Event c (Some e)] = [except_msg e "minio"].
Proof.
  intros Hcode. apply is_reported_true in Hcode.
  unfold reports_of, report_of; cbn. now rewrite Hcode.
Qed.

(** ** Deleting one object *)

(** What [_object_delete] does with an identifier, once it has a client:
    one [remove_object], reported unless it is a [NoSuchKey]. *)
Lemma object_delete_run bucket basepath name client errors w c :
  let got := client_or_access client errors w in
  let target := path_join basepath name in
  let removal := remove_object c bucket target (remote (world_after got)) in
  value got = Return (Some c) ->
  _object_delete bucket basepath (Some name) client errors w =
    Result
      (Return (match fst removal with
               | Return _ => true
               | Raise _ => false
               end))
      (errors ++ reports_of [Event (CallRemoveObject bucket target)
                                   (raised_of (fst removal))])
      (mkWorld (snd removal) (files (world_after got))
         (uuid_seed (world_after got))
         (trace (world_after got) ++
            [Event (CallRemoveObject bucket target) (raised_of (fst removal))])).
Proof.
  intros got target removal Hgot.
  unfold _object_delete.
  rewrite (bind_return _ _ _ _ _ _ _ (client_or_access_obtained _ _ _ _ Hgot)).
  fold got. subst removal target.
  unfold try_except, bind, client_call, _s3_log, _s3_except_msg, ret,
    reports_of, report_of.
  destruct (remove_object c bucket (path_join basepath name)
              (remote (world_after got))) as [[[]|e] s]; cbn.
  - now rewrite app_nil_r.
  - destruct (is_reported e); cbn; now rewrite ?app_nil_r.
Qed.

(** C2. When the [remove_object] call of the single-object delete raises
    an exception whose code is [NoSuchKey], nothing is appended to the
    error list and the function returns [False]; it returns [True]
    exactly when the call completed without raising. *)
Theorem object_delete_not_found bucket basepath name client errors w c :
  let got := client_or_access client errors w in
  let removal := remove_object c bucket (path_join basepath name)
                   (remote (world_after got)) in
  let r := _object_delete bucket basepath (Some name) client errors w in
  value got = Return (Some c) ->
  (forall e, fst removal = Raise e -> exn_code e = Some "NoSuchKey" ->
     value r = Return false /\ errors_after r = errors) /\
  (value r = Return true <-> fst removal = Return tt).
Proof.
  intros got removal r Hgot. subst r.
  rewrite (object_delete_run _ _ _ _ _ _ _ Hgot). fold got. fold removal.
  cbn [value errors_after]. split.
  - intros e He Hcode. rewrite He. cbn.
    unfold report_of, is_reported; cbn. rewrite Hcode. cbn.
    split; [reflexivity | apply app_nil_r].
  - destruct (fst removal) as [[]|e]; split; intros Heq;
      (reflexivity || discriminate).
Qed.

(** ** Retrieving a file, retrieving the descriptor of an object *)

Lemma file_retrieve_run bucket basepath name filepath client errors w c :
  let got := client_or_access client errors w in
  let target := path_join basepath name in
  let fetch := fget_object c bucket target (remote (world_after got)) in
  let ev := Event (CallFgetObject bucket target filepath)
              (raised_of (fst fetch)) in
  value got = Return (Some c) ->
  _file_retrieve bucket basepath name filepath client errors w =
    Result
      (Return (match fst fetch with
               | Return found => Some (fst found)
               | Raise _ => None
               end))
      (errors ++ reports_of [ev])
      (mkWorld (snd fetch)
         (match fst fetch with
          | Return found => <[filepath := snd found]> (files (world_after got))
          | Raise _ => files (world_after got)
          end)
         (uuid_seed (world_after got))
         (trace (world_after got) ++ [ev])).
Proof.
  intros got target fetch ev Hgot.
  unfold _file_retrieve.
  rewrite (bind_return _ _ _ _ _ _ _ (client_or_access_obtained _ _ _ _ Hgot)).
  fold got. subst ev fetch target.
  unfold try_except, bind, client_fget_object, bind, client_call, _s3_log,
    _s3_except_msg, ret, reports_of, report_of.
  destruct (fget_object c bucket (path_join basepath name)
              (remote (world_after got))) as [[[obj data]|e] s]; cbn.
  - now rewrite app_nil_r.
  - destruct (is_reported e); cbn; now rewrite ?app_nil_r.
Qed.

Lemma object_stat_run bucket basepath name client errors w c :
  let got := client_or_access client errors w in
  let target := path_join basepath name in
  let stat := stat_object c bucket target (remote (world_after got)) in
  let ev := Event (CallStatObject bucket target) (raised_of (fst stat)) in
  value got = Return (Some c) ->
  _object_stat bucket basepath name client errors w =
    Result
      (Return (match fst stat with
               | Return obj => Some obj
               | Raise _ => None
               end))
      (errors ++ reports_of [ev])
      (mkWorld (snd stat) (files (world_after got))
         (uuid_seed (world_after got)) (trace (world_after got) ++ [ev])).
Proof.
  intros got target stat ev Hgot.
  unfold _object_stat.
  rewrite (bind_return _ _ _ _ _ _ _ (client_or_access_obtained _ _ _ _ Hgot)).
  fold got. subst ev stat target.
  unfold try_except, bind, client_call, _s3_log, _s3_except_msg, ret,
    reports_of, report_of.
  destruct (stat_object c bucket (path_join basepath name)
              (remote (world_after got))) as [[obj|e] s]; cbn.
  - now rewrite app_nil_r.
  - destruct (is_reported e); cbn; now rewrite ?app_nil_r.
Qed.

(** C4. When the store raises on [fget_object] or on [stat_object],
    [_file_retrieve] and [_object_stat] return [None]; an exception whose
    code is [NoSuchKey] appends nothing to the error list, every other
    exception is appended to it. *)
Theorem retrieve_and_stat_not_found bucket basepath name filepath client
    errors w c :
  let got := client_or_access client errors w in
  let target := path_join basepath name in
  let fetch := fget_object c bucket target (remote (world_after got)) in
  let stat := stat_object c bucket target (remote (world_after got)) in
  let r_get := _file_retrieve bucket basepath name filepath client errors w in
  let r_stat := _object_stat bucket basepath name client errors w in
  value got = Return (Some c) ->
  (forall e, fst fetch = Raise e ->
     value r_get = Return None /\
     (exn_code e = Some "NoSuchKey" -> errors_after r_get = errors) /\
     (exn_code e <> Some "NoSuchKey" ->
        errors_after r_get = errors ++ [except_msg e "minio"])) /\
  (forall e, fst stat = Raise e ->
     value r_stat = Return None /\
     (exn_code e = Some "NoSuchKey" -> errors_after r_stat = errors) /\
     (exn_code e <> Some "NoSuchKey" ->
        errors_after r_stat = errors ++ [except_msg e "minio"])).
Proof.
  intros got target fetch stat r_get r_stat Hgot. split.
  - intros e He. subst r_get.
    rewrite (file_retrieve_run _ _ _ _ _ _ _ _ Hgot).
    fold got. fold target. fold fetch. rewrite He. cbn [value errors_after raised_of].
    split; [reflexivity|]. split; intros Hcode.
    + rewrite (reports_of_not_found _ _ Hcode). apply app_nil_r.
    + now rewrite (reports_of_other _ _ Hcode).
  - intros e He. subst r_stat.
    rewrite (object_stat_run _ _ _ _ _ _ _ Hgot).
    fold got. fold target. fold stat. rewrite He. cbn [value errors_after raised_of].
    split; [reflexivity|]. split; intros Hcode.
    + rewrite (reports_of_not_found _ _ Hcode). apply app_nil_r.
    + now rewrite (reports_of_other _ _ Hcode).
Qed.

(** ** Listing, and deleting a folder *)

Lemma objects_list_run bucket basepath recursive client errors w c :
  let got := client_or_access client errors w in
  let listing := list_objects c bucket basepath recursive
                   (remote (world_after got)) in
  let ev := Event (CallListObjects bucket basepath recursive)
              (raised_of (fst listing)) in
  value got = Return (Some c) ->
  _objects_list bucket basepath recursive client errors w =
    Result
      (Return (match fst listing with
               | Return objs => Some objs
               | Raise _ => None
               end))
      (errors ++ match fst listing with
                 | Return _ => []
                 | Raise e => [except_msg e "minio"]
                 end)
      (mkWorld (snd listing) (files (world_after got))
         (uuid_seed (world_after got)) (trace (world_after got) ++ [ev])).
Proof.
  intros got listing ev Hgot.
  unfold _objects_list.
  rewrite (bind_return _ _ _ _ _ _ _ (client_or_access_obtained _ _ _ _ Hgot)).
  fold got. subst ev listing.
  unfold try_except, bind, client_call, _s3_log, _s3_except_msg, ret.
  destruct (list_objects c bucket basepath recursive
              (remote (world_after got))) as [[objs|e] s]; cbn;
    now rewrite ?app_nil_r.
Qed.

Lemma removals_calls c bucket (objs : list MinioObject) (s : Store) :
  map ev_call (fst (removals c bucket objs s)) =
  map (fun obj => CallRemoveObject bucket (object_name obj)) objs.
Proof.
  revert s. induction objs as [|obj rest IH]; intros s; cbn; [reflexivity|].
  destruct (remove_object c bucket (object_name obj) s) as [o s'].
  specialize (IH s'). destruct (removals c bucket rest s') as [evs s''].
  cbn in *. now rewrite IH.
Qed.

Lemma reports_of_length (evs : list event) :
  length (reports_of evs) = length (List.filter is_failure evs).
Proof.
  induction evs as [|ev evs IH]; [reflexivity|].
  unfold reports_of in *. cbn [flat_map List.filter].
  rewrite length_app, IH. unfold report_of, is_failure.
  destruct (ev_raised ev) as [e|]; [destruct (is_reported e)|]; reflexivity.
Qed.

(** One turn of the loop of [__folder_delete]. *)
Lemma folder_delete_step_run bucket basepath c (obj : MinioObject) errors w :
  let removal := remove_object c bucket (object_name obj) (remote w) in
  let ev := Event (CallRemoveObject bucket (object_name obj))
              (raised_of (fst removal)) in
  folder_delete_step bucket basepath c obj errors w =
    Result (Return tt) (errors ++ report_of ev)
      (mkWorld (snd removal) (files w) (uuid_seed w) (trace w ++ [ev])).
Proof.
  unfold folder_delete_step, try_except, bind, client_call, _s3_log,
    _s3_except_msg, ret, report_of.
  destruct (remove_object c bucket (object_name obj) (remote w))
    as [[[]|e] s']; cbn.
  - now rewrite app_nil_r.
  - destruct (is_reported e); cbn; now rewrite ?app_nil_r.
Qed.

(** The loop of [__folder_delete] removes every descriptor in turn and
    never lets an exception escape. *)
Lemma folder_delete_loop bucket basepath c (objs : list MinioObject) errors w :
  let done := removals c bucket objs (remote w) in
  for_each objs (folder_delete_step bucket basepath c) errors w =
    Result (Return tt) (errors ++ reports_of (fst done))
      (mkWorld (snd done) (files w) (uuid_seed w) (trace w ++ fst done)).
Proof.
  revert errors w. induction objs as [|obj rest IH]; intros errors w.
  - cbn. unfold ret. rewrite !app_nil_r. now destruct w.
  - cbn [for_each removals].
    erewrite bind_return by apply folder_delete_step_run.
    rewrite IH. cbn [remote files uuid_seed trace].
    destruct (remove_object c bucket (object_name obj) (remote w)) as [o s'].
    cbn [fst snd].
    destruct (removals c bucket rest s') as [evs s'']. cbn [fst snd].
    unfold reports_of. cbn [flat_map].
    now rewrite <- !app_assoc.
Qed.

(** The loop over an iterator: the removals of what it yields, then its
    fault. *)
Lemma for_iterator_run bucket basepath c (objs : Iterator) errors w :
  let done := removals c bucket (yielded objs) (remote w) in
  for_iterator objs (folder_delete_step bucket basepath c) errors w =
    Result (match fault objs with
            | Some e => Raise e
            | None => Return tt
            end)
      (errors ++ reports_of (fst done))
      (mkWorld (snd done) (files w) (uuid_seed w) (trace w ++ fst done)).
Proof.
  intros done. unfold for_iterator.
  erewrite bind_return by apply folder_delete_loop.
  now destruct (fault objs).
Qed.

(** [__folder_delete] once the call of its listing returned. *)
Lemma folder_delete_run bucket basepath c errors w
    (lister : Minio) (objs : Iterator) (s0 s1 : Store) :
  Minio_new (remote w) = (Return lister, s0) ->
  list_objects lister bucket basepath true s0 = (Return objs, s1) ->
  let done := removals c bucket (yielded objs) s1 in
  __folder_delete bucket basepath c errors w =
    Result (match fault objs with
            | Some e => Raise e
            | None => Return tt
            end)
      (errors ++ reports_of (fst done))
      (mkWorld (snd done) (files w) (uuid_seed w)
         (trace w ++ [Event CallMinio None;
                      Event (CallListObjects bucket basepath true) None] ++
            fst done)).
Proof.
  intros Hnew Hlist done.
  assert (Hgot : client_or_access None errors w =
                 Result (Return (Some lister)) errors
                   (mkWorld s0 (files w) (uuid_seed w)
                      (trace w ++ [Event CallMinio None]))).
  { cbn. unfold _access, try_except, bind, client_call, _s3_log, ret.
    now rewrite Hnew. }
  unfold __folder_delete.
  erewrite bind_return.
  2:{ rewrite (objects_list_run bucket basepath true None errors w lister)
        by now rewrite Hgot.
      rewrite Hgot. cbn. rewrite Hlist. cbn. rewrite app_nil_r.
      reflexivity. }
  cbn beta iota. rewrite for_iterator_run. cbn.
  subst done. now rewrite <- !app_assoc.
Qed.

(** C3. When the recursive listing of the prefix yields the descriptors
    [objs], [__folder_delete] issues one [remove_object] per descriptor,
    in the order of the listing, whatever the earlier ones raised; every
    removal that raised without the code [NoSuchKey] appends one entry to
    the error list, the others append nothing.  The traversal returns
    when the iterator stops after [objs]; when the iterator breaks after
    them, what it raises leaves the function once they are removed. *)
Theorem folder_delete_traversal bucket basepath c errors w
    (lister : Minio) (objs : list MinioObject) (broken : option exn)
    (s0 s1 : Store) :
  Minio_new (remote w) = (Return lister, s0) ->
  list_objects lister bucket basepath true s0
  = (Return (Listing objs broken), s1) ->
  let r := __folder_delete bucket basepath c errors w in
  let evs := fst (removals c bucket objs s1) in
  value r = match broken with
            | None => Return tt
            | Some e => Raise e
            end /\
  trace (world_after r) =
    trace w ++ [Event CallMinio None;
                Event (CallListObjects bucket basepath true) None] ++ evs /\
  map ev_call evs =
    map (fun obj => CallRemoveObject bucket (object_name obj)) objs /\
  errors_after r = errors ++ reports_of evs /\
  length (errors_after r) =
    length errors + length (List.filter is_failure evs) /\
  remote (world_after r) = snd (removals c bucket objs s1).
Proof.
  intros Hnew Hlist r evs. subst r.
  rewrite (folder_delete_run _ _ _ _ _ _ _ _ _ Hnew Hlist).
  cbn [yielded fault]. fold evs.
  cbn [value errors_after world_after trace remote].
  repeat split.
  - apply removals_calls.
  - rewrite length_app, reports_of_length. reflexivity.
Qed.



(** The folder form of [_object_delete] returns what [__folder_delete]
    lets it return: [False], or nothing. *)
Lemma object_delete_folder_value bucket basepath client errors w :
  let got := client_or_access client errors w in
  value (_object_delete bucket basepath None client errors w) =
    match value got with
    | Return (Some c) =>
        match value (__folder_delete bucket basepath c
                       (errors_after got) (world_after got)) with
        | Return _ => Return false
        | Raise e => Raise e
        end
    | _ => Return false
    end.
Proof.
  intros got. unfold _object_delete. rewrite bind_run. fold got.
  destruct (client_or_access_returns client errors w) as [[c|] Hgot];
    fold got in Hgot; rewrite Hgot; [|reflexivity].
  rewrite bind_run.
  now destruct (value (__folder_delete bucket basepath c _ _)).
Qed.

Lemma object_delete_folder_never_true bucket basepath client errors w :
  value (_object_delete bucket basepath None client errors w) <> Return true.
Proof.
  rewrite object_delete_folder_value.
  destruct (value (client_or_access client errors w)) as [[c|]|e];
    try discriminate.
  now destruct (value (__folder_delete bucket basepath c _ _)).
Qed.




(** ** Existence of a folder *)

(** The folder branch: the result is [True] when the iterator stops at
    once and [False] when it yields; what the iterator raises at once
    leaves the function, and [next] fails on the [None] left by a call
    that raised. *)
Lemma folder_check_run bucket basepath c errors w :
  let listing := list_objects c bucket basepath false (remote w) in
  let w' := mkWorld (snd listing) (files w) (uuid_seed w)
              (trace w ++ [Event (CallListObjects bucket basepath false)
                             (raised_of (fst listing))]) in
  folder_check bucket basepath c errors w =
    match fst listing with
    | Return objs =>
        Result (match yielded objs, fault objs with
                | _ :: _, _ => Return false
                | [], None => Return true
                | [], Some e => Raise e
                end) errors w'
    | Raise e => Result (Raise TypeError_next) (errors ++ [except_msg e "minio"]) w'
    end.
Proof.
  intros listing w'. unfold folder_check.
  rewrite bind_run.
  rewrite (objects_list_run bucket basepath false (Some c) errors w c eq_refl).
  cbn [value errors_after world_after client_or_access ret].
  fold listing. subst w'.
  destruct (fst listing) as [[[|obj objs] [e|]]|e]; cbn;
    now rewrite ?app_nil_r.
Qed.

(** C8. With the identifier omitted and a client at hand,
    [_object_exists] never returns.  Once [next] has answered, the base
    path is joined with [None], which raises a [TypeError]; when the call
    of the listing raised, [next] is applied to [None], which raises a
    [TypeError] after the failure of the call was appended; and when the
    iterator of the listing raises at once, its exception leaves the
    function with nothing appended. *)
Theorem object_exists_folder_raises bucket basepath client errors w c :
  let got := client_or_access client errors w in
  let listing := list_objects c bucket basepath false
                   (remote (world_after got)) in
  let r := _object_exists bucket basepath None client errors w in
  value got = Return (Some c) ->
  (exists e, value r = Raise e) /\
  (forall objs, fst listing = Return objs ->
     errors_after r = errors /\
     value r = match yielded objs, fault objs with
               | [], Some e => Raise e
               | _, _ => Raise TypeError_truediv
               end) /\
  (forall e, fst listing = Raise e ->
     value r = Raise TypeError_next /\
     errors_after r = errors ++ [except_msg e "minio"]).
Proof.
  intros got listing r Hgot.
  assert (Hrun : r = match fst listing with
                     | Return objs =>
                         Result (match yielded objs, fault objs with
                                 | [], Some e => Raise e
                                 | _, _ => Raise TypeError_truediv
                                 end) errors (world_after r)
                     | Raise e =>
                         Result (Raise TypeError_next)
                           (errors ++ [except_msg e "minio"]) (world_after r)
                     end).
  { rewrite (result_eta r) at 1. subst r. unfold _object_exists.
    rewrite (bind_return _ _ _ _ _ _ _
               (client_or_access_obtained _ _ _ _ Hgot)).
    fold got. rewrite bind_run, folder_check_run. fold listing.
    destruct (fst listing) as [[[|obj objs] [e|]]|e]; reflexivity. }
  split; [|split].
  - rewrite Hrun.
    destruct (fst listing) as [[[|obj objs] [e|]]|e]; now eexists.
  - intros objs Hl. rewrite Hrun, Hl. split; reflexivity.
  - intros e Hl. rewrite Hrun, Hl. split; reflexivity.
Qed.

(** ** Building the tags *)

(** When no entry is refused, every key is set to its value through
    [unidecode]. *)
Lemma set_items_lookup (items : list (string * string)) (doc_tags done : Tags)
    (key : string) :
  NoDup items.*1 ->
  set_items items doc_tags = Return done ->
  done !! key =
    match (list_to_map items : Tags) !! key with
    | Some value => Some (unidecode value)
    | None => doc_tags !! key
    end.
Proof.
  revert doc_tags. induction items as [|[k v] rest IH]; intros doc_tags Hnd.
  - cbn. intros [= <-]. now rewrite lookup_empty.
  - cbn [set_items]. apply NoDup_cons in Hnd as [Hfresh Hnd].
    destruct (Tags_refuses doc_tags k (unidecode v)); [intros [=]|].
    intros Hrest. rewrite (IH _ Hnd Hrest). cbn [list_to_map foldr].
    destruct (decide (k = key)) as [->|Hne].
    + rewrite (not_elem_of_list_to_map_1 _ _ Hfresh), !lookup_insert_eq.
      reflexivity.
    + rewrite !lookup_insert_ne by exact Hne. reflexivity.
Qed.

Lemma doc_tags_of_some (tags : Tags) (doc_tags : option Tags) :
  tags <> ∅ ->
  doc_tags_of (Some tags) = Return doc_tags ->
  doc_tags = Some (unidecode <$> tags).
Proof.
  intros Hne. unfold doc_tags_of.
  apply map_size_non_empty_iff in Hne.
  destruct (Nat.eqb_spec (size tags) 0) as [Hz|_]; [contradiction|].
  destruct (set_items (map_to_list tags) ∅) as [done|e] eqn:Hset; [|intros [=]].
  intros [= <-]. f_equal. apply map_eq. intros key.
  rewrite (set_items_lookup _ _ _ key (NoDup_fst_map_to_list tags) Hset).
  rewrite list_to_map_to_list, lookup_fmap, lookup_empty.
  now destruct (tags !! key).
Qed.

Lemma doc_tags_of_none (tags : option Tags) :
  tags = None \/ tags = Some ∅ -> doc_tags_of tags = Return None.
Proof.
  intros [-> | ->]; [reflexivity|].
  unfold doc_tags_of. now rewrite map_size_empty.
Qed.

(** ** Storing a file, storing and retrieving an object *)

Lemma file_store_run bucket basepath identifier filepath mimetype
    (tags doc_tags : option Tags) client errors w c :
  let got := client_or_access client errors w in
  let w1 := world_after got in
  let target := path_join basepath identifier in
  let upload := fput_object c bucket target (files w1 !! filepath) mimetype
                  doc_tags (remote w1) in
  let ev := Event (CallFputObject bucket target filepath mimetype doc_tags)
              (raised_of (fst upload)) in
  value got = Return (Some c) ->
  doc_tags_of tags = Return doc_tags ->
  _file_store bucket basepath identifier filepath mimetype tags client
    errors w =
    Result
      (Return (match fst upload with
               | Return _ => true
               | Raise _ => false
               end))
      (errors ++ match fst upload with
                 | Return _ => []
                 | Raise e => [except_msg e "minio"]
                 end)
      (mkWorld (snd upload) (files w1) (uuid_seed w1) (trace w1 ++ [ev])).
Proof.
  intros got w1 target upload ev Hgot Hdoc.
  unfold _file_store.
  rewrite (bind_return _ _ _ _ _ _ _ (client_or_access_obtained _ _ _ _ Hgot)).
  fold got. fold w1. subst ev upload target.
  unfold lift, try_except, bind, client_fput_object, client_call, _s3_log,
    _s3_except_msg, ret.
  rewrite Hdoc.
  destruct (fput_object c bucket (path_join basepath identifier)
              (files w1 !! filepath) mimetype doc_tags (remote w1))
    as [[[]|e] s]; cbn; now rewrite ?app_nil_r.
Qed.

(** A refusal of [Tags] escapes from [_file_store] before any upload. *)
Lemma file_store_refused bucket basepath identifier filepath mimetype
    (tags : option Tags) client errors w c (e : exn) :
  let got := client_or_access client errors w in
  value got = Return (Some c) ->
  doc_tags_of tags = Raise e ->
  _file_store bucket basepath identifier filepath mimetype tags client
    errors w = Result (Raise e) errors (world_after got).
Proof.
  intros got Hgot Hdoc.
  unfold _file_store.
  rewrite (bind_return _ _ _ _ _ _ _ (client_or_access_obtained _ _ _ _ Hgot)).
  unfold lift, bind. now rewrite Hdoc.
Qed.

Lemma object_store_run bucket basepath identifier (obj : Any)
    (tags doc_tags : option Tags) client errors w c (data : bytes) :
  let got := client_or_access client errors w in
  let w1 := world_after got in
  let filepath := path_join temp_folder (uuid4 (uuid_seed w1) +:+ ".pickle") in
  let target := path_join basepath identifier in
  let upload := fput_object c bucket target (Some data)
                  "application/octet-stream" doc_tags (remote w1) in
  let ev := Event (CallFputObject bucket target filepath
                     "application/octet-stream" doc_tags)
              (raised_of (fst upload)) in
  value got = Return (Some c) ->
  pickle_dump obj = Return data ->
  doc_tags_of tags = Return doc_tags ->
  _object_store bucket basepath identifier obj tags client errors w =
    match fst upload with
    | Return _ =>
        Result (Return true) errors
          (mkWorld (snd upload)
             (delete filepath (<[filepath := data]> (files w1)))
             (S (uuid_seed w1)) (trace w1 ++ [ev]))
    | Raise e =>
        Result (Return false) (errors ++ [except_msg e "minio"])
          (mkWorld (snd upload) (<[filepath := data]> (files w1))
             (S (uuid_seed w1)) (trace w1 ++ [ev]))
    end.
Proof.
  intros got w1 filepath target upload ev Hgot Hdump Hdoc.
  unfold _object_store.
  rewrite (bind_return _ _ _ _ _ _ _ (client_or_access_obtained _ _ _ _ Hgot)).
  fold got. fold w1.
  unfold temp_filepath, uuid_uuid4. unfold bind at 1 2. unfold ret at 1.
  fold filepath.
  unfold open_wb_pickle_dump. unfold bind at 1. rewrite Hdump.
  unfold with_errors. unfold bind at 1.
  rewrite (file_store_run _ _ _ _ _ _ _ (Some c) _ _ c eq_refl Hdoc).
  cbn [client_or_access ret world_after remote files uuid_seed trace].
  rewrite lookup_insert_eq. fold target. fold upload. fold ev.
  destruct (fst upload) as [[]|e]; cbn [app].
  - unfold unlink, bind, _s3_log, ret. cbn.
    rewrite lookup_insert_eq. reflexivity.
  - unfold errors_extend, bind, _s3_log, ret. cbn. reflexivity.
Qed.

(** C7. The temporary file of [_object_store] is removed exactly when
    the upload reported no error: then the function returns [True]; when
    the upload failed it returns [False], the error of the upload is
    appended to the caller's list and the temporary file stays. *)
Theorem object_store_temp_file bucket basepath identifier (obj : Any)
    (tags doc_tags : option Tags) client errors w c (data : bytes) :
  let got := client_or_access client errors w in
  let w1 := world_after got in
  let filepath := path_join temp_folder (uuid4 (uuid_seed w1) +:+ ".pickle") in
  let upload := fput_object c bucket (path_join basepath identifier)
                  (Some data) "application/octet-stream" doc_tags
                  (remote w1) in
  let r := _object_store bucket basepath identifier obj tags client errors w in
  value got = Return (Some c) ->
  pickle_dump obj = Return data ->
  doc_tags_of tags = Return doc_tags ->
  (fst upload = Return tt ->
     value r = Return true /\
     files (world_after r) !! filepath = None /\
     errors_after r = errors) /\
  (forall e, fst upload = Raise e ->
     value r = Return false /\
     files (world_after r) !! filepath = Some data /\
     errors_after r = errors ++ [except_msg e "minio"]) /\
  (files (world_after r) !! filepath = None <-> fst upload = Return tt).
Proof.
  intros got w1 filepath upload r Hgot Hdump Hdoc. subst r.
  rewrite (object_store_run _ _ _ _ _ _ _ _ _ _ _ Hgot Hdump Hdoc).
  fold got. fold w1. fold filepath. fold upload.
  destruct (fst upload) as [[]|e];
    cbn [value errors_after world_after files].
  - rewrite lookup_delete_eq.
    split; [easy|]. split; [intros e [=]|easy].
  - rewrite lookup_insert_eq.
    split; [intros [=]|]. split; [|split; intros [=]].
    intros e' [= <-]. easy.
Qed.

(** [_object_store] returns [True] only after it obtained a client,
    pickled the object, built the tags and uploaded the pickled bytes
    without error. *)
Lemma object_store_true bucket basepath identifier (obj : Any)
    (tags : option Tags) client errors w :
  let got := client_or_access client errors w in
  value (_object_store bucket basepath identifier obj tags client errors w)
  = Return true ->
  exists c data doc_tags,
    value got = Return (Some c) /\
    pickle_dump obj = Return data /\
    doc_tags_of tags = Return doc_tags /\
    fst (fput_object c bucket (path_join basepath identifier) (Some data)
           "application/octet-stream" doc_tags
           (remote (world_after got))) = Return tt.
Proof.
  intros got.
  destruct (client_or_access_returns client errors w) as [[c|] Hgot].
  - destruct (pickle_dump obj) as [data|e] eqn:Hdump.
    + destruct (doc_tags_of tags) as [doc_tags|e] eqn:Hdoc.
      * rewrite (object_store_run _ _ _ _ _ _ _ _ _ _ _ Hgot Hdump Hdoc).
        fold got.
        destruct (fst (fput_object c bucket (path_join basepath identifier)
                         (Some data) "application/octet-stream"
                         doc_tags (remote (world_after got))))
          as [[]|e] eqn:Hup; cbn; [|intros [=]].
        intros _. exists c, data, doc_tags. fold got in Hgot. auto.
      * unfold _object_store.
        rewrite (bind_return _ _ _ _ _ _ _
                   (client_or_access_obtained _ _ _ _ Hgot)).
        unfold temp_filepath, uuid_uuid4. unfold bind at 1 2. unfold ret at 1.
        unfold open_wb_pickle_dump. unfold bind at 1. rewrite Hdump.
        unfold with_errors. unfold bind at 1.
        rewrite (file_store_refused _ _ _ _ _ _ (Some c) _ _ c _ eq_refl Hdoc).
        cbn. intros [=].
    + unfold _object_store.
      rewrite (bind_return _ _ _ _ _ _ _
                 (client_or_access_obtained _ _ _ _ Hgot)).
      unfold temp_filepath, uuid_uuid4. unfold bind at 1 2. unfold ret at 1.
      unfold open_wb_pickle_dump. unfold bind at 1. rewrite Hdump.
      cbn. intros [=].
  - unfold _object_store. rewrite bind_run, Hgot. cbn. intros [=].
Qed.


(** When the construction of a client leaves the remote state as it is,
    so does obtaining one. *)
Lemma client_or_access_remote client errors w :
  (forall s : Store, snd (Minio_new s) = s) ->
  remote (world_after (client_or_access client errors w)) = remote w.
Proof.
  intros Hquiet. destruct client as [c|]; [reflexivity|]. cbn.
  unfold _access, try_except, bind, client_call, _s3_log, _s3_except_msg, ret.
  specialize (Hquiet (remote w)).
  destruct (Minio_new (remote w)) as [[m|e] s]; cbn in *; now subst.
Qed.


(** ** Tags *)

(** The loop over [tags.items()] of [_object_tags_retrieve] copies the tags. *)
Lemma tags_copy_fold (tags : Tags) :
  map_fold (fun key value (result : Tags) => <[key := value]> result) ∅ tags
  = tags.
Proof.
  induction tags as [|key value tags Hfresh IH] using map_ind.
  - now rewrite map_fold_empty.
  - rewrite map_fold_insert_L, IH; [reflexivity| |exact Hfresh].
    intros j1 j2 z1 z2 y Hne _ _. now apply insert_insert_ne.
Qed.

Lemma tags_to_dict_some (tags : Tags) :
  tags <> ∅ -> tags_to_dict (Some tags) = Some tags.
Proof.
  intros Hne. unfold tags_to_dict.
  apply map_size_non_empty_iff in Hne.
  destruct (Nat.ltb_spec 0 (size tags)) as [_|Hz]; [|lia].
  now rewrite tags_copy_fold.
Qed.

Lemma object_tags_retrieve_run bucket basepath identifier client errors w c :
  let got := client_or_access client errors w in
  let w1 := world_after got in
  let target := path_join basepath identifier in
  let query := get_object_tags c bucket target (remote w1) in
  let ev := Event (CallGetObjectTags bucket target) (raised_of (fst query)) in
  value got = Return (Some c) ->
  _object_tags_retrieve bucket basepath identifier client errors w =
    Result
      (Return (match fst query with
               | Return tags => tags_to_dict tags
               | Raise _ => None
               end))
      (errors ++ reports_of [ev])
      (mkWorld (snd query) (files w1) (uuid_seed w1) (trace w1 ++ [ev])).
Proof.
  intros got w1 target query ev Hgot.
  unfold _object_tags_retrieve.
  rewrite (bind_return _ _ _ _ _ _ _ (client_or_access_obtained _ _ _ _ Hgot)).
  fold got. fold w1. subst ev query target.
  unfold try_except, bind, client_call, _s3_log, _s3_except_msg, ret,
    reports_of, report_of.
  destruct (get_object_tags c bucket (path_join basepath identifier)
              (remote w1)) as [[tags|e] s]; cbn.
  - now rewrite app_nil_r.
  - destruct (is_reported e); cbn; now rewrite ?app_nil_r.
Qed.

(** [_file_store] returns [True] only after it obtained a client, built
    the tags and uploaded the file without error. *)
Lemma file_store_true bucket basepath identifier filepath mimetype
    (tags : option Tags) client errors w :
  let got := client_or_access client errors w in
  value (_file_store bucket basepath identifier filepath mimetype tags client
           errors w) = Return true ->
  exists c doc_tags,
    value got = Return (Some c) /\
    doc_tags_of tags = Return doc_tags /\
    fput_object c bucket (path_join basepath identifier)
      (files (world_after got) !! filepath) mimetype doc_tags
      (remote (world_after got))
    = (Return tt,
       remote (world_after
                 (_file_store bucket basepath identifier filepath mimetype
                    tags client errors w))).
Proof.
  intros got.
  destruct (client_or_access_returns client errors w) as [[c|] Hgot].
  - destruct (doc_tags_of tags) as [doc_tags|e] eqn:Hdoc.
    + rewrite (file_store_run _ _ _ _ _ _ _ _ _ _ _ Hgot Hdoc). fold got.
      cbn [value world_after remote].
      destruct (fput_object c bucket (path_join basepath identifier)
                  (files (world_after got) !! filepath) mimetype doc_tags
                  (remote (world_after got))) as [[[]|e] s] eqn:Hup; cbn;
        [|intros [=]].
      intros _. exists c, doc_tags. fold got in Hgot. auto.
    + rewrite (file_store_refused _ _ _ _ _ _ _ _ _ _ _ Hgot Hdoc).
      intros [=].
  - unfold _file_store. rewrite bind_run, Hgot. cbn. intros [=].
Qed.

(** C6. [_file_store] hands the store, for a map of tags that is not
    empty, the same keys with every value through [unidecode], and
    [_object_tags_retrieve] returns that normalised map from a store that
    keeps the tags it was given: a value such as "café" comes back as
    "cafe".  With [None] or an empty map the store is handed no tags. *)
Theorem file_store_tags_normalized bucket basepath identifier filepath
    mimetype (tags : Tags) client (client' : option Minio) errors
    (errors' : list string) w (c' : Minio) :
  let target := path_join basepath identifier in
  let put := _file_store bucket basepath identifier filepath mimetype
               (Some tags) client errors w in
  let got' := client_or_access client' errors' (world_after put) in
  let r := _object_tags_retrieve bucket basepath identifier client' errors'
             (world_after put) in
  tags <> ∅ ->
  (forall s : Store, snd (Minio_new s) = s) ->
  (forall k b n content ct tg s s',
     fput_object k b n content ct tg s = (Return tt, s') ->
     exists s'', get_object_tags c' b n s' = (Return tg, s'')) ->
  value put = Return true ->
  value got' = Return (Some c') ->
  last (trace (world_after put)) =
    Some (Event (CallFputObject bucket target filepath mimetype
                   (Some (unidecode <$> tags))) None) /\
  value r = Return (Some (unidecode <$> tags)) /\
  (forall key v, tags !! key = Some v ->
     (unidecode <$> tags) !! key = Some (unidecode v)) /\
  (forall key, tags !! key = Some "café" -> unidecode "café" = "cafe" ->
     (unidecode <$> tags) !! key = Some "cafe") /\
  (forall none, none = None \/ none = Some ∅ ->
     exists raised,
       last (trace (world_after
                      (_file_store bucket basepath identifier filepath mimetype
                         none client errors w))) =
       Some (Event (CallFputObject bucket target filepath mimetype None)
               raised)).
Proof.
  intros target put got' r Hne Hquiet Hkeeps Hput Hgot'.
  destruct (file_store_true _ _ _ _ _ _ _ _ _ Hput)
    as (c & doc_tags & Hgot & Hdoc & Hup).
  pose proof (doc_tags_of_some tags doc_tags Hne Hdoc) as ->.
  fold put in Hup.
  split; [|split; [|split; [|split]]].
  - subst put. rewrite (file_store_run _ _ _ _ _ _ _ _ _ _ _ Hgot Hdoc).
    cbn [world_after trace]. rewrite Hup. apply last_snoc.
  - destruct (Hkeeps _ _ _ _ _ _ _ _ Hup) as [s'' Hquery].
    rewrite <- (client_or_access_remote client' errors' (world_after put)
                  Hquiet) in Hquery.
    subst r. rewrite (object_tags_retrieve_run _ _ _ _ _ _ _ Hgot').
    cbn [value]. rewrite Hquery. cbn [fst].
    rewrite tags_to_dict_some; [reflexivity|].
    intros Hempty. apply Hne. now apply fmap_empty_inv in Hempty.
  - intros key v Hkey. now rewrite lookup_fmap, Hkey.
  - intros key Hkey Hcafe. now rewrite lookup_fmap, Hkey, <- Hcafe.
  - intros none Hnone.
    rewrite (file_store_run _ _ _ _ _ _ _ _ _ _ _ Hgot
               (doc_tags_of_none none Hnone)).
    cbn [world_after trace]. eexists. apply last_snoc.
Qed.

(** ** The error list only grows *)

Lemma try_run {A : Type} (body : M Store A) (handler : exn -> M Store A)
    errors w :
  try_except body handler errors w =
    match value (body errors w) with
    | Return a =>
        Result (Return a) (errors_after (body errors w))
          (world_after (body errors w))
    | Raise e =>
        handler e (errors_after (body errors w)) (world_after (body errors w))
    end.
Proof. unfold try_except. now destruct (body errors w) as [[a|e] errors' w']. Qed.

Lemma blames_quiet {A : Type} (m : M Store A) :
  (forall errors w,
     errors_after (m errors w) = errors /\
     trace (world_after (m errors w)) = trace w /\
     exists a, value (m errors w) = Return a) ->
  blames_client m.
Proof.
  intros Hm errors w. destruct (Hm errors w) as (He & Ht & a & Hv).
  exists []. rewrite app_nil_r. repeat split; [assumption..|].
  intros e Hraise. congruence.
Qed.

Lemma blames_ret {A : Type} (a : A) : blames_client (ret (Store := Store) a).
Proof. apply blames_quiet. intros errors w. cbn. eauto. Qed.

Lemma blames_log (stmt : string) : blames_client (_s3_log (Store := Store) stmt).
Proof. apply blames_ret. Qed.

Lemma blames_call {A : Type} (k : call) (op : Store -> outcome A * Store) :
  blames_client (client_call k op).
Proof.
  intros errors w. unfold client_call.
  destruct (op (remote w)) as [o s]. cbn.
  exists [Event k (raised_of o)]. repeat split.
  intros e ->. cbn. intros Hok. inversion Hok as [|? ? Hev _]. discriminate Hev.
Qed.

Lemma blames_bind {A B : Type} (m : M Store A) (k : A -> M Store B) :
  blames_client m -> (forall a, blames_client (k a)) -> blames_client (bind m k).
Proof.
  intros Hm Hk errors w. rewrite bind_run.
  destruct (Hm errors w) as (evs1 & He1 & Ht1 & Hr1).
  destruct (value (m errors w)) as [a|e] eqn:Hv.
  - rewrite He1.
    destruct (Hk a errors (world_after (m errors w)))
      as (evs2 & He2 & Ht2 & Hr2).
    exists (evs1 ++ evs2). rewrite He2, Ht2, Ht1, app_assoc.
    repeat split. intros e Hraise Hok.
    apply Forall_app in Hok as [_ Hok]. exact (Hr2 e Hraise Hok).
  - exists evs1. cbn. repeat split; [assumption..|].
    intros e' [= <-]. exact (Hr1 e eq_refl).
Qed.

Lemma blames_fput c bucket name filepath mimetype (tags : option Tags) :
  blames_client (client_fput_object c bucket name filepath mimetype tags).
Proof.
  intros errors w. unfold client_fput_object.
  apply (blames_call _ _ errors w).
Qed.

Lemma blames_fget c bucket name filepath :
  blames_client (client_fget_object c bucket name filepath).
Proof.
  unfold client_fget_object. apply blames_bind; [apply blames_call|].
  intros got. apply blames_quiet. intros errors w. cbn. eauto.
Qed.

Lemma extends_bind {A B : Type} (m : M Store A) (k : A -> M Store B) :
  extends m -> (forall a, extends (k a)) -> extends (bind m k).
Proof.
  intros Hm Hk errors w. rewrite bind_run.
  destruct (Hm errors w) as (added1 & evs1 & He1 & Ht1).
  destruct (value (m errors w)) as [a|e].
  - destruct (Hk a (errors_after (m errors w)) (world_after (m errors w)))
      as (added2 & evs2 & He2 & Ht2).
    exists (added1 ++ added2), (evs1 ++ evs2).
    now rewrite He2, Ht2, He1, Ht1, !app_assoc.
  - exists added1, evs1. now cbn.
Qed.

Lemma extends_ret {A : Type} (a : A) : extends (ret (Store := Store) a).
Proof. intros errors w. exists [], []. cbn. now rewrite !app_nil_r. Qed.

Lemma extends_except_msg (e : exn) (engine : string) :
  extends (_s3_except_msg (Store := Store) e engine).
Proof.
  intros errors w. exists [except_msg e engine], []. cbn.
  now rewrite app_nil_r.
Qed.

Lemma appends_blames {A : Type} (m : M Store A) :
  blames_client m -> appends_only m.
Proof.
  intros Hm errors w. destruct (Hm errors w) as (evs & He & Ht & _).
  exists [], evs. rewrite app_nil_r. auto.
Qed.

Lemma appends_quiet {A : Type} (m : M Store A) :
  (forall errors w,
     errors_after (m errors w) = errors /\
     trace (world_after (m errors w)) = trace w) ->
  appends_only m.
Proof.
  intros Hm errors w. destruct (Hm errors w) as [He Ht].
  exists [], []. rewrite !app_nil_r. auto.
Qed.

Lemma appends_bind {A B : Type} (m : M Store A) (k : A -> M Store B) :
  appends_only m -> (forall a, appends_only (k a)) -> appends_only (bind m k).
Proof.
  intros Hm Hk errors w. rewrite bind_run.
  destruct (Hm errors w) as (added1 & evs1 & He1 & Ht1 & Hok1).
  destruct (value (m errors w)) as [a|e].
  - destruct (Hk a (errors_after (m errors w)) (world_after (m errors w)))
      as (added2 & evs2 & He2 & Ht2 & Hok2).
    exists (added1 ++ added2), (evs1 ++ evs2).
    rewrite He2, Ht2, He1, Ht1, !app_assoc. repeat split.
    intros Hok. apply Forall_app in Hok as [H1 H2].
    now rewrite (Hok1 H1), (Hok2 H2).
  - exists added1, evs1. now cbn.
Qed.

Lemma appends_try {A : Type} (body : M Store A) (handler : exn -> M Store A) :
  blames_client body -> (forall e, extends (handler e)) ->
  appends_only (try_except body handler).
Proof.
  intros Hb Hh errors w. rewrite try_run.
  destruct (Hb errors w) as (evs1 & He1 & Ht1 & Hr1).
  destruct (value (body errors w)) as [a|e].
  - exists [], evs1. cbn. rewrite app_nil_r. auto.
  - destruct (Hh e (errors_after (body errors w)) (world_after (body errors w)))
      as (added & evs2 & He2 & Ht2).
    exists added, (evs1 ++ evs2). rewrite He2, Ht2, He1, Ht1, app_assoc.
    repeat split. intros Hok. apply Forall_app in Hok as [Hok _].
    now destruct (Hr1 e eq_refl).
Qed.

Lemma appends_for_each {B : Type} (xs : list B) (body : B -> M Store unit) :
  (forall x, appends_only (body x)) -> appends_only (for_each xs body).
Proof.
  intros Hbody. induction xs as [|x xs IH]; cbn.
  - apply appends_blames, blames_ret.
  - apply appends_bind; auto.
Qed.

Create HintDb facade.

Lemma appends_lift {A : Type} (o : outcome A) :
  appends_only (lift (Store := Store) o).
Proof. apply appends_quiet. intros errors w. now cbn. Qed.

#[local] Hint Resolve blames_ret blames_log blames_call blames_fput
  blames_fget extends_ret extends_except_msg appends_lift : facade.

(** Walks through the binds, the [try] blocks and the branches of a function. *)
Ltac grows :=
  repeat first
    [ progress cbv zeta
    | solve [auto with facade]
    | apply appends_blames; solve [auto with facade]
    | match goal with
      | |- appends_only (try_except _ _) => apply appends_try; [|intros ?]
      | |- appends_only (bind _ _) => apply appends_bind; [|intros ?]
      | |- blames_client (bind _ _) => apply blames_bind; [|intros ?]
      | |- extends (bind _ _) => apply extends_bind; [|intros ?]
      | |- context [match ?x with _ => _ end] => destruct x
      end ].

Lemma appends_access : appends_only (_access (Store := Store)).
Proof. unfold _access. grows. Qed.
#[local] Hint Resolve appends_access : facade.

Lemma appends_client_or_access client : appends_only (client_or_access client).
Proof. unfold client_or_access. grows. Qed.
#[local] Hint Resolve appends_client_or_access : facade.

Lemma appends_startup bucket : appends_only (_startup bucket).
Proof. unfold _startup. grows. Qed.

Lemma appends_file_store bucket basepath identifier filepath mimetype
    (tags : option Tags) client :
  appends_only
    (_file_store bucket basepath identifier filepath mimetype tags client).
Proof. unfold _file_store. grows. Qed.

Lemma appends_file_retrieve bucket basepath identifier filepath client :
  appends_only (_file_retrieve bucket basepath identifier filepath client).
Proof. unfold _file_retrieve. grows. Qed.

Lemma appends_object_stat bucket basepath identifier client :
  appends_only (_object_stat bucket basepath identifier client).
Proof. unfold _object_stat. grows. Qed.

Lemma appends_objects_list bucket basepath recursive client :
  appends_only (_objects_list bucket basepath recursive client).
Proof. unfold _objects_list. grows. Qed.

Lemma appends_object_tags_retrieve bucket basepath identifier client :
  appends_only (_object_tags_retrieve bucket basepath identifier client).
Proof. unfold _object_tags_retrieve. grows. Qed.

#[local] Hint Resolve appends_file_store appends_file_retrieve
  appends_object_stat appends_objects_list : facade.

Lemma appends_folder_delete bucket basepath c :
  appends_only (__folder_delete bucket basepath c).
Proof.
  unfold __folder_delete. apply appends_bind; [auto with facade|].
  intros [objs|]; [|grows]. unfold for_iterator. apply appends_bind.
  - apply appends_for_each. intros obj. unfold folder_delete_step. grows.
  - intros _. destruct (fault objs); [|grows].
    apply appends_quiet. intros errors w. now cbn.
Qed.
#[local] Hint Resolve appends_folder_delete : facade.

Lemma appends_object_delete bucket basepath (identifier : option string) client :
  appends_only (_object_delete bucket basepath identifier client).
Proof. unfold _object_delete. grows. Qed.

(** The Python built-ins touch neither the error list nor the client. *)
Lemma appends_raise {A : Type} (e : exn) :
  appends_only (raise (Store := Store) (A := A) e).
Proof. apply appends_quiet. intros errors w. now cbn. Qed.

Lemma appends_path_div basepath (identifier : option string) :
  appends_only (path_div (Store := Store) basepath identifier).
Proof. destruct identifier; cbn; [grows|apply appends_raise]. Qed.

Lemma appends_py_next (objs : option Iterator) :
  appends_only (py_next (Store := Store) objs).
Proof.
  destruct objs as [[[|obj objs] [e|]]|]; cbn; (grows || apply appends_raise).
Qed.

Lemma appends_temp_filepath : appends_only (temp_filepath (Store := Store)).
Proof. apply appends_quiet. intros errors w. now cbn. Qed.

Lemma appends_pickle_dump filepath (obj : Any) :
  appends_only (open_wb_pickle_dump (Store := Store) filepath obj).
Proof.
  apply appends_quiet. intros errors w. unfold open_wb_pickle_dump.
  now destruct (pickle_dump obj).
Qed.

Lemma appends_pickle_load filepath :
  appends_only (open_rb_pickle_load (Store := Store) filepath).
Proof.
  apply appends_quiet. intros errors w. unfold open_rb_pickle_load.
  now destruct (files w !! filepath).
Qed.

Lemma appends_unlink filepath : appends_only (unlink (Store := Store) filepath).
Proof.
  apply appends_quiet. intros errors w. unfold unlink.
  now destruct (files w !! filepath).
Qed.

#[local] Hint Resolve appends_raise appends_path_div appends_py_next
  appends_temp_filepath appends_pickle_dump appends_pickle_load
  appends_unlink : facade.

Lemma appends_object_exists bucket basepath (identifier : option string) client :
  appends_only (_object_exists bucket basepath identifier client).
Proof. unfold _object_exists, folder_check. grows. Qed.

Lemma appends_object_retrieve bucket basepath identifier client :
  appends_only (_object_retrieve bucket basepath identifier client).
Proof. unfold _object_retrieve. grows. Qed.

(** The upload of [_object_store] runs on a list of its own, and the
    caller's list receives what that list collected. *)
Lemma appends_object_store bucket basepath identifier (obj : Any)
    (tags : option Tags) client :
  appends_only (_object_store bucket basepath identifier obj tags client).
Proof.
  unfold _object_store. apply appends_bind; [auto with facade|].
  intros [c|]; [|grows].
  apply appends_bind; [auto with facade|]. intros filepath.
  apply appends_bind; [auto with facade|]. intros _.
  intros errors w. rewrite bind_run. unfold with_errors.
  destruct (appends_file_store bucket basepath identifier filepath
              "application/octet-stream" tags (Some c) [] w)
    as (added & evs & He & Ht & Hok).
  destruct (_file_store bucket basepath identifier filepath
              "application/octet-stream" tags (Some c) [] w)
    as [[stored|e] op_errors w']; cbn in He, Ht |- *.
  - subst op_errors. destruct added as [|msg added].
    + exists [], evs. rewrite app_nil_r.
      unfold unlink, bind, _s3_log, ret.
      destruct (files w' !! filepath); cbn; auto.
    + exists (msg :: added), evs.
      unfold errors_extend, bind, _s3_log, ret. cbn. auto.
  - exists [], evs. rewrite app_nil_r. auto.
Qed.

(** ** Nothing is appended on success *)

(** Splits on whether a client was obtained; without one the functions
    return their failure value. *)
Ltac head_of t :=
  match t with
  | ?f _ => head_of f
  | _ => t
  end.

Ltac on_client client errors w c Hgot :=
  destruct (client_or_access_returns client errors w) as [[c|] Hgot];
  [| let Hv := fresh "Hv" in
     let Hs := fresh "Hs" in
     intros Hv Hs; exfalso; revert Hv Hs;
     match goal with
     | |- value (?f errors w) = _ -> _ => let h := head_of f in unfold h
     end;
     rewrite bind_run, Hgot; cbn;
     let Hs' := fresh "Hs" in intros [= <-] Hs'; cbn in Hs'; discriminate ].

Lemma quiet_access :
  quiet_on (A := option Minio) is_Some_bool (_access (Store := Store)).
Proof.
  intros errors w [c|] Ha Hs; [|discriminate].
  change (_access errors w) with (client_or_access None errors w).
  now rewrite (client_or_access_obtained None errors w c Ha).
Qed.

Lemma quiet_startup bucket : quiet_on id (_startup bucket).
Proof.
  intros errors w a Ha Hs. cbn in Hs. subst a. revert Ha.
  unfold _startup, _access, try_except, bind, client_call, _s3_log,
    _s3_except_msg, ret.
  destruct (Minio_new (remote w)) as [[m|e] s]; cbn; [|congruence].
  destruct (bucket_exists m bucket s) as [[[]|e] s']; cbn; [easy| |congruence].
  destruct (make_bucket m bucket s') as [[[]|e] s'']; cbn; congruence.
Qed.

Lemma quiet_file_store bucket basepath identifier filepath mimetype
    (tags : option Tags) client :
  quiet_on id
    (_file_store bucket basepath identifier filepath mimetype tags client).
Proof.
  intros errors w a Ha Hs. cbn in Hs. subst a.
  destruct (file_store_true _ _ _ _ _ _ _ _ _ Ha)
    as (c & doc_tags & Hgot & Hdoc & Hup).
  rewrite (file_store_run _ _ _ _ _ _ _ _ _ _ _ Hgot Hdoc).
  cbn [errors_after]. rewrite Hup. apply app_nil_r.
Qed.

Lemma quiet_file_retrieve bucket basepath identifier filepath client :
  quiet_on is_Some_bool
    (_file_retrieve bucket basepath identifier filepath client).
Proof.
  intros errors w a. on_client client errors w c Hgot.
  rewrite (file_retrieve_run _ _ _ _ _ _ _ _ Hgot). cbn [value errors_after].
  destruct (fst (fget_object c bucket (path_join basepath identifier) _))
    as [found|e]; intros [= <-] Hs; [|discriminate].
  apply app_nil_r.
Qed.

Lemma quiet_object_stat bucket basepath identifier client :
  quiet_on is_Some_bool (_object_stat bucket basepath identifier client).
Proof.
  intros errors w a. on_client client errors w c Hgot.
  rewrite (object_stat_run _ _ _ _ _ _ _ Hgot). cbn [value errors_after].
  destruct (fst (stat_object c bucket (path_join basepath identifier) _))
    as [found|e]; intros [= <-] Hs; [|discriminate].
  apply app_nil_r.
Qed.

Lemma quiet_objects_list bucket basepath recursive client :
  quiet_on is_Some_bool (_objects_list bucket basepath recursive client).
Proof.
  intros errors w a. on_client client errors w c Hgot.
  rewrite (objects_list_run _ _ _ _ _ _ _ Hgot). cbn [value errors_after].
  destruct (fst (list_objects c bucket basepath recursive _))
    as [found|e]; intros [= <-] Hs; [|discriminate].
  apply app_nil_r.
Qed.

Lemma quiet_object_tags_retrieve bucket basepath identifier client :
  quiet_on is_Some_bool
    (_object_tags_retrieve bucket basepath identifier client).
Proof.
  intros errors w a. on_client client errors w c Hgot.
  rewrite (object_tags_retrieve_run _ _ _ _ _ _ _ Hgot).
  cbn [value errors_after].
  destruct (fst (get_object_tags c bucket (path_join basepath identifier) _))
    as [found|e]; intros [= <-] Hs; [|discriminate].
  apply app_nil_r.
Qed.

Lemma quiet_object_store bucket basepath identifier (obj : Any)
    (tags : option Tags) client :
  quiet_on id (_object_store bucket basepath identifier obj tags client).
Proof.
  intros errors w a Ha Hs. cbn in Hs. subst a.
  destruct (object_store_true _ _ _ _ _ _ _ _ Ha)
    as (c & data & doc_tags & Hgot & Hdump & Hdoc & Hup).
  rewrite (object_store_run _ _ _ _ _ _ _ _ _ _ _ Hgot Hdump Hdoc).
  now rewrite Hup.
Qed.

Lemma quiet_object_delete bucket basepath (identifier : option string) client :
  quiet_on id (_object_delete bucket basepath identifier client).
Proof.
  intros errors w a. destruct identifier as [name|].
  - on_client client errors w c Hgot.
    rewrite (object_delete_run _ _ _ _ _ _ _ Hgot). cbn [value errors_after].
    destruct (fst (remove_object c bucket (path_join basepath name) _))
      as [[]|e]; intros [= <-] Hs; [|discriminate].
    apply app_nil_r.
  - intros Ha Hs. cbn in Hs. subst a.
    now apply object_delete_folder_never_true in Ha.
Qed.

Lemma quiet_object_exists bucket basepath (identifier : option string) client :
  quiet_on id (_object_exists bucket basepath identifier client).
Proof.
  intros errors w a. on_client client errors w c Hgot.
  unfold _object_exists.
  rewrite (bind_return _ _ _ _ _ _ _ (client_or_access_obtained _ _ _ _ Hgot)).
  destruct identifier as [name|].
  - rewrite bind_run, bind_run.
    rewrite (object_stat_run bucket basepath name (Some c) errors _ c eq_refl).
    cbn [client_or_access ret value errors_after world_after].
    destruct (fst (stat_object c bucket (path_join basepath name) _))
      as [found|e]; cbn; intros [= <-] Hs; [|discriminate].
    apply app_nil_r.
  - rewrite bind_run, folder_check_run.
    destruct (fst (list_objects c bucket basepath false _))
      as [[[|obj objs] [e|]]|e]; cbn; congruence.
Qed.

(** C10. Every function of the module only appends to the error list it
    was given: the list it leaves starts with the list it received, and
    nothing is appended when none of the calls made on the client raised;
    in particular the list is left as it was when the function returns
    [True], or a result that is not [None]. *)
Theorem operations_only_append :
  (appends_only (_access (Store := Store)) /\
   (forall bucket, appends_only (_startup bucket)) /\
   (forall bucket basepath identifier filepath mimetype tags client,
      appends_only
        (_file_store bucket basepath identifier filepath mimetype tags client)) /\
   (forall bucket basepath identifier filepath client,
      appends_only (_file_retrieve bucket basepath identifier filepath client)) /\
   (forall bucket basepath identifier client,
      appends_only (_object_exists bucket basepath identifier client)) /\
   (forall bucket basepath identifier client,
      appends_only (_object_stat bucket basepath identifier client)) /\
   (forall bucket basepath identifier (obj : Any) tags client,
      appends_only (_object_store bucket basepath identifier obj tags client)) /\
   (forall bucket basepath identifier client,
      appends_only (_object_retrieve bucket basepath identifier client)) /\
   (forall bucket basepath identifier client,
      appends_only (_object_delete bucket basepath identifier client)) /\
   (forall bucket basepath identifier client,
      appends_only (_object_tags_retrieve bucket basepath identifier client)) /\
   (forall bucket basepath recursive client,
      appends_only (_objects_list bucket basepath recursive client)) /\
   (forall bucket basepath c,
      appends_only (__folder_delete bucket basepath c))) /\
  (quiet_on (A := option Minio) is_Some_bool (_access (Store := Store)) /\
   (forall bucket, quiet_on id (_startup bucket)) /\
   (forall bucket basepath identifier filepath mimetype tags client,
      quiet_on id
        (_file_store bucket basepath identifier filepath mimetype tags client)) /\
   (forall bucket basepath identifier filepath client,
      quiet_on is_Some_bool
        (_file_retrieve bucket basepath identifier filepath client)) /\
   (forall bucket basepath identifier client,
      quiet_on id (_object_exists bucket basepath identifier client)) /\
   (forall bucket basepath identifier client,
      quiet_on is_Some_bool (_object_stat bucket basepath identifier client)) /\
   (forall bucket basepath identifier (obj : Any) tags client,
      quiet_on id (_object_store bucket basepath identifier obj tags client)) /\
   (forall bucket basepath identifier client,
      quiet_on id (_object_delete bucket basepath identifier client)) /\
   (forall bucket basepath identifier client,
      quiet_on is_Some_bool
        (_object_tags_retrieve bucket basepath identifier client)) /\
   (forall bucket basepath recursive client,
      quiet_on is_Some_bool
        (_objects_list bucket basepath recursive client))).
Proof.
  split.
  - repeat apply conj; intros.
    + apply appends_access.
    + apply appends_startup.
    + apply appends_file_store.
    + apply appends_file_retrieve.
    + apply appends_object_exists.
    + apply appends_object_stat.
    + apply appends_object_store.
    + apply appends_object_retrieve.
    + apply appends_object_delete.
    + apply appends_object_tags_retrieve.
    + apply appends_objects_list.
    + apply appends_folder_delete.
  - repeat apply conj; intros.
    + apply quiet_access.
    + apply quiet_startup.
    + apply quiet_file_store.
    + apply quiet_file_retrieve.
    + apply quiet_object_exists.
    + apply quiet_object_stat.
    + apply quiet_object_store.
    + apply quiet_object_delete.
    + apply quiet_object_tags_retrieve.
    + apply quiet_objects_list.
Qed.

End Properties.

(** * The in-memory store obeys the laws asked of a store *)

Lemma memory_new_quiet (s : Memory.store) : snd (Minio_new s) = s.
Proof. cbn. now destruct (Memory.online s). Qed.

Lemma memory_keeps_data (k : unit) (b n : string) (data : bytes)
    (ct : string) (tg : option Tags) (s s' : Memory.store) :
  fput_object k b n (Some data) ct tg s = (Return tt, s') ->
  exists meta s'', fget_object tt b n s' = (Return (meta, data), s'').
Proof.
  cbn. destruct (Memory.buckets s !! b) as [objs|] eqn:Hb; [|intros [=]].
  destruct (Memory.is_denied s n); intros [= <-]. cbn.
  rewrite !lookup_insert_eq. cbn. eauto.
Qed.

Lemma memory_keeps_tags (k : unit) (b n : string) (content : option bytes)
    (ct : string) (tg : option Tags) (s s' : Memory.store) :
  fput_object k b n content ct tg s = (Return tt, s') ->
  exists s'', get_object_tags tt b n s' = (Return tg, s'').
Proof.
  cbn. destruct content as [data|]; [|intros [=]].
  destruct (Memory.buckets s !! b) as [objs|] eqn:Hb; [|intros [=]].
  destruct (Memory.is_denied s n); intros [= <-]. cbn.
  rewrite !lookup_insert_eq. cbn. eauto.
Qed.



(** * The properties on the in-memory store *)

(** Removing a report that is not in the bucket: the store answers
    [NoSuchKey], nothing is appended and the result is [False]. *)
Lemma object_delete_not_found_witness :
  let r := _object_delete "docs" "reports/2024" (Some "q3.pdf") (Some tt) []
             (Memory.world Memory.docs) in
  fst (remove_object tt "docs" "reports/2024/q3.pdf" Memory.docs)
  = Raise (Memory.S3Error "NoSuchKey") /\
  value r = Return false /\ errors_after r = [].
Proof.
  split; [vm_compute; reflexivity|].
  destruct (object_delete_not_found "docs" "reports/2024" "q3.pdf" (Some tt)
              [] (Memory.world Memory.docs) tt eq_refl) as [Hskip _].
  apply (Hskip (Memory.S3Error "NoSuchKey")); vm_compute; reflexivity.
Defined.

(** Retrieving, and asking the descriptor of, a report that is not in the
    bucket: [None], and nothing appended. *)
Lemma retrieve_and_stat_not_found_witness :
  let r_get := _file_retrieve "docs" "reports/2024" "q3.pdf" "/tmp/q3.pdf"
                 (Some tt) [] (Memory.world Memory.docs) in
  let r_stat := _object_stat "docs" "reports/2024" "q3.pdf" (Some tt) []
                  (Memory.world Memory.docs) in
  (value r_get = Return None /\ errors_after r_get = []) /\
  (value r_stat = Return None /\ errors_after r_stat = []).
Proof.
  destruct (retrieve_and_stat_not_found "docs" "reports/2024" "q3.pdf"
              "/tmp/q3.pdf" (Some tt) [] (Memory.world Memory.docs) tt eq_refl)
    as [Hget Hstat].
  destruct (Hget (Memory.S3Error "NoSuchKey")) as (Hv & Hskip & _);
    [vm_compute; reflexivity|].
  destruct (Hstat (Memory.S3Error "NoSuchKey")) as (Hv' & Hskip' & _);
    [vm_compute; reflexivity|].
  split; split; auto.
Defined.

(** Asking whether the folder of the reports exists, with a client at
    hand: the [TypeError] of the join escapes.  Asking it of a bucket
    that does not exist: the iterator raises at [next], and that is what
    escapes, with nothing appended. *)
Lemma object_exists_folder_raises_witness :
  let r := _object_exists "docs" "reports/2024/" None (Some tt) []
             (Memory.world Memory.docs) in
  let r' := _object_exists "nowhere" "reports/2024/" None (Some tt) ["prior"]
              (Memory.world Memory.docs) in
  value r = Raise TypeError_truediv /\
  value r' = Raise (Memory.S3Error "NoSuchBucket") /\
  errors_after r' = ["prior"].
Proof.
  split.
  - destruct (object_exists_folder_raises "docs" "reports/2024/" (Some tt) []
                (Memory.world Memory.docs) tt eq_refl) as (_ & Hlisted & _).
    destruct (Hlisted (Listing [Object "docs" "reports/2024/q1.pdf" 2;
                                Object "docs" "reports/2024/q2.pdf" 2] None))
      as [_ Hv]; [vm_compute; reflexivity|exact Hv].
  - destruct (object_exists_folder_raises "nowhere" "reports/2024/" (Some tt)
                ["prior"] (Memory.world Memory.docs) tt eq_refl)
      as (_ & Hlisted & _).
    destruct (Hlisted (Listing [] (Some (Memory.S3Error "NoSuchBucket"))))
      as [He Hv]; [vm_compute; reflexivity|].
    split; [exact Hv|exact He].
Defined.

(** C1. The folder [reports/2024/] of the bucket [docs] holds two
    reports, so a non-recursive listing yields descriptors; the folder
    branch of [_object_exists] computes [False] for it ([True] is what an
    empty listing gives), and the function does not return [True]: the
    join of the base path with [None] raises. *)
Theorem object_exists_folder_nonempty :
  fst (list_objects tt "docs" "reports/2024/" false Memory.docs)
  = Return (Listing [Object "docs" "reports/2024/q1.pdf" 2;
                     Object "docs" "reports/2024/q2.pdf" 2] None) /\
  value (folder_check "docs" "reports/2024/" tt [] (Memory.world Memory.docs))
  = Return false /\
  value (folder_check "docs" "drafts/" tt [] (Memory.world Memory.docs))
  = Return true /\
  value (_object_exists "docs" "reports/2024/" None (Some tt) []
           (Memory.world Memory.docs))
  = Raise TypeError_truediv.
Proof. repeat split; vm_compute; reflexivity. Qed.

(** Deleting the folder [reports]: both reports are removed in the order
    of the listing; the second is refused, which is the one entry
    appended. *)
Lemma folder_delete_traversal_witness :
  let r := __folder_delete "docs" "reports" tt []
             (Memory.world Memory.docs) in
  value r = Return tt /\
  map ev_call (trace (world_after r)) =
    [CallMinio; CallListObjects "docs" "reports" true;
     CallRemoveObject "docs" "reports/2024/q1.pdf";
     CallRemoveObject "docs" "reports/2024/q2.pdf"] /\
  errors_after r = ["Error accessing 'minio': AccessDenied"].
Proof.
  assert (Hnew : Minio_new (remote (Memory.world Memory.docs))
                 = (Return tt, Memory.docs)) by (vm_compute; reflexivity).
  assert (Hlist : list_objects tt "docs" "reports" true Memory.docs
                  = (Return (Listing [Object "docs" "reports/2024/q1.pdf" 2;
                                      Object "docs" "reports/2024/q2.pdf" 2]
                               None),
                     Memory.docs)) by (vm_compute; reflexivity).
  destruct (folder_delete_traversal "docs" "reports" tt []
              (Memory.world Memory.docs) tt _ _ _ _ Hnew Hlist)
    as (Hv & Ht & _ & He & _).
  split; [exact Hv|]. split.
  - rewrite Ht. vm_compute. reflexivity.
  - rewrite He. vm_compute. reflexivity.
Defined.

(** Storing a text under [vals/x]: the upload succeeds, the result is
    [True] and the temporary file is gone; under the name of the refused
    report the upload fails, the result is [False], its error is appended
    and the temporary file stays. *)
Lemma object_store_temp_file_witness :
  let stored := _object_store "docs" "vals" "x" (Memory.PyStr "hello") None
                  (Some tt) [] (Memory.world Memory.docs) in
  let refused := _object_store "docs" "reports/2024" "q2.pdf"
                   (Memory.PyStr "hello") None (Some tt) []
                   (Memory.world Memory.docs) in
  (value stored = Return true /\
   files (world_after stored) !! "/tmp/uuid-0.pickle" = None /\
   errors_after stored = []) /\
  (value refused = Return false /\
   files (world_after refused) !! "/tmp/uuid-0.pickle"
   = Some (Memory.dump (Memory.PyStr "hello")) /\
   errors_after refused = ["Error accessing 'minio': AccessDenied"]).
Proof.
  assert (Hdump : pickle_dump (Memory.PyStr "hello")
                  = Return (Memory.dump (Memory.PyStr "hello")))
    by reflexivity.
  assert (Hdoc : doc_tags_of None = Return None) by reflexivity.
  split.
  - destruct (object_store_temp_file "docs" "vals" "x" (Memory.PyStr "hello")
                None None (Some tt) [] (Memory.world Memory.docs) tt _
                eq_refl Hdump Hdoc)
      as (Hok & _ & _).
    apply Hok. vm_compute. reflexivity.
  - destruct (object_store_temp_file "docs" "reports/2024" "q2.pdf"
                (Memory.PyStr "hello") None None (Some tt) []
                (Memory.world Memory.docs) tt _ eq_refl Hdump Hdoc)
      as (_ & Hfail & _).
    apply (Hfail (Memory.S3Error "AccessDenied")). vm_compute. reflexivity.
Defined.


(** The scenario of the report stored with the author "José" and the
    drink "café". *)
Lemma file_store_tags_normalized_witness :
  let tags : Tags := {["author" := "José"; "drink" := "café"]} in
  let put := _file_store "docs" "reports/2024" "q1.pdf" "/tmp/q1.pdf"
               "application/pdf" (Some tags) None [] Memory.desk in
  let r := _object_tags_retrieve "docs" "reports/2024" "q1.pdf" None []
             (world_after put) in
  value put = Return true /\
  value r = Return (Some {["author" := "Jose"; "drink" := "cafe"]}).
Proof.
  intros tags put r.
  split; [vm_compute; reflexivity|].
  destruct (file_store_tags_normalized "docs" "reports/2024" "q1.pdf"
              "/tmp/q1.pdf" "application/pdf" tags None None [] []
              Memory.desk tt)
    as (_ & Hr & _).
  - intros Hempty.
    assert (Hl : tags !! "drink" = Some "café") by (vm_compute; reflexivity).
    rewrite Hempty in Hl. discriminate Hl.
  - apply memory_new_quiet.
  - apply memory_keeps_tags.
  - vm_compute. reflexivity.
  - vm_compute. reflexivity.
  - subst r put. rewrite Hr. vm_compute. reflexivity.
Defined.



(** * What the functions touch *)

Section Steps.

Context {Store Minio Any : Type} `{!MinioAPI Store Minio} `{!Host Any}.

Variable R : World Store -> World Store -> Prop.
Hypothesis R_refl : forall w, R w w.
Hypothesis R_trans : forall w1 w2 w3, R w1 w2 -> R w2 w3 -> R w1 w3.

Implicit Types (errors : list string) (w : World Store) (c : Minio).
Implicit Types (bucket basepath name : string) (client : option Minio).

Lemma steps_still {A : Type} (m : M Store A) :
  (forall errors w, world_after (m errors w) = w) -> steps R m.
Proof using R_refl. intros Hm errors w. rewrite Hm. apply R_refl. Qed.

Lemma steps_bind {A B : Type} (m : M Store A) (k : A -> M Store B) :
  steps R m -> (forall a, steps R (k a)) -> steps R (bind m k).
Proof using R_trans.
  intros Hm Hk errors w. rewrite bind_run.
  destruct (value (m errors w)) as [a|e]; [|apply Hm].
  eapply R_trans; [apply Hm|apply Hk].
Qed.

Lemma steps_try {A : Type} (body : M Store A) (handler : exn -> M Store A) :
  steps R body -> (forall e, steps R (handler e)) ->
  steps R (try_except body handler).
Proof using R_trans.
  intros Hb Hh errors w. rewrite try_run.
  destruct (value (body errors w)) as [a|e]; [apply Hb|].
  eapply R_trans; [apply Hb|apply Hh].
Qed.

Lemma steps_with_errors {A : Type} (op_errors : list string) (m : M Store A) :
  steps R m -> steps R (with_errors op_errors m).
Proof using Type.
  intros Hm errors w. unfold with_errors.
  specialize (Hm op_errors w).
  now destruct (m op_errors w) as [[a|e] errs w'].
Qed.

Lemma steps_for_each {B : Type} (xs : list B) (body : B -> M Store unit) :
  (forall x, steps R (body x)) -> steps R (for_each xs body).
Proof using R_refl R_trans.
  intros Hbody. induction xs as [|x xs IH]; cbn.
  - now apply steps_still.
  - apply steps_bind; auto.
Qed.

Lemma steps_call {A : Type} (k : call) (op : Store -> outcome A * Store) :
  allows_call R k -> steps R (client_call k op).
Proof using Type.
  intros Hk errors w. unfold client_call.
  destruct (op (remote w)) as [o s]. apply Hk.
Qed.

Lemma steps_fput c bucket name filepath mimetype (tags : option Tags) :
  allows_call R (CallFputObject bucket name filepath mimetype tags) ->
  steps R (client_fput_object c bucket name filepath mimetype tags).
Proof using Type.
  intros Hk errors w. unfold client_fput_object.
  now apply steps_call.
Qed.

Lemma steps_fget c bucket name filepath :
  allows_call R (CallFgetObject bucket name filepath) -> allows_local R ->
  steps R (client_fget_object c bucket name filepath).
Proof using R_trans.
  intros Hk Hl. unfold client_fget_object.
  apply steps_bind; [now apply steps_call|].
  intros got errors w. apply Hl.
Qed.

Lemma steps_local {A : Type} (m : M Store A) :
  allows_local R ->
  (forall errors w,
     remote (world_after (m errors w)) = remote w /\
     trace (world_after (m errors w)) = trace w) ->
  steps R m.
Proof using Type.
  intros Hl Hm errors w. destruct (Hm errors w) as [Hr Ht].
  specialize (Hl w (files (world_after (m errors w)))
                (uuid_seed (world_after (m errors w)))).
  rewrite <- Hr, <- Ht in Hl. now destruct (world_after (m errors w)).
Qed.

(** Walks through a function, leaving the calls and the local changes to
    the assumptions at hand. *)
Ltac walk :=
  repeat first
    [ progress cbv zeta
    | assumption
    | match goal with
      | |- steps _ (bind _ _) => apply steps_bind; [|intros ?]
      | |- steps _ (try_except _ _) => apply steps_try; [|intros ?]
      | |- steps _ (with_errors _ _) => apply steps_with_errors
      | |- steps _ (for_each _ _) => apply steps_for_each; intros ?
      | |- steps _ (client_call _ _) => apply steps_call
      | |- steps _ (client_fput_object _ _ _ _ _ _) => apply steps_fput
      | |- steps _ (client_fget_object _ _ _ _) => apply steps_fget
      | |- allows_call _ _ =>
          match goal with
          | H : allows_name _ _ |- _ => apply H; reflexivity
          end
      | |- steps _ (ret _) => apply steps_still; reflexivity
      | |- steps _ (raise _) => apply steps_still; reflexivity
      | |- steps _ (lift _) => apply steps_still; reflexivity
      | |- steps _ (_s3_log _) => apply steps_still; reflexivity
      | |- steps _ (_s3_except_msg _ _) => apply steps_still; reflexivity
      | |- steps _ (errors_extend _) => apply steps_still; reflexivity
      | |- context [match ?x with _ => _ end] => destruct x
      end ].

Lemma steps_client_or_access client :
  (client = None -> allows_name R "Minio") ->
  steps R (client_or_access client).
Proof using R_refl R_trans.
  intros Hacc. destruct client as [c|]; cbn; [walk|].
  specialize (Hacc eq_refl). unfold _access. walk.
Qed.

Lemma steps_startup bucket :
  allows_name R "Minio" -> allows_name R "bucket_exists" ->
  allows_name R "make_bucket" -> steps R (_startup bucket).
Proof using R_refl R_trans.
  intros Hminio Hexists Hmake. unfold _startup, _access. walk.
Qed.

Lemma steps_file_store bucket basepath identifier filepath mimetype
    (tags : option Tags) client :
  (client = None -> allows_name R "Minio") -> allows_name R "fput_object" ->
  steps R (_file_store bucket basepath identifier filepath mimetype tags client).
Proof using R_refl R_trans.
  intros Hacc Hput. unfold _file_store.
  apply steps_bind; [now apply steps_client_or_access|]. intros curr. walk.
Qed.

Lemma steps_file_retrieve bucket basepath identifier filepath client :
  (client = None -> allows_name R "Minio") -> allows_name R "fget_object" ->
  allows_local R ->
  steps R (_file_retrieve bucket basepath identifier filepath client).
Proof using R_refl R_trans.
  intros Hacc Hget Hlocal. unfold _file_retrieve.
  apply steps_bind; [now apply steps_client_or_access|]. intros curr. walk.
Qed.

Lemma steps_object_stat bucket basepath identifier client :
  (client = None -> allows_name R "Minio") -> allows_name R "stat_object" ->
  steps R (_object_stat bucket basepath identifier client).
Proof using R_refl R_trans.
  intros Hacc Hstat. unfold _object_stat.
  apply steps_bind; [now apply steps_client_or_access|]. intros curr. walk.
Qed.

Lemma steps_objects_list bucket basepath recursive client :
  (client = None -> allows_name R "Minio") -> allows_name R "list_objects" ->
  steps R (_objects_list bucket basepath recursive client).
Proof using R_refl R_trans.
  intros Hacc Hlist. unfold _objects_list.
  apply steps_bind; [now apply steps_client_or_access|]. intros curr. walk.
Qed.

Lemma steps_object_tags_retrieve bucket basepath identifier client :
  (client = None -> allows_name R "Minio") ->
  allows_name R "get_object_tags" ->
  steps R (_object_tags_retrieve bucket basepath identifier client).
Proof using R_refl R_trans.
  intros Hacc Htags. unfold _object_tags_retrieve.
  apply steps_bind; [now apply steps_client_or_access|]. intros curr. walk.
Qed.

Lemma steps_folder_delete bucket basepath c :
  allows_name R "Minio" -> allows_name R "list_objects" ->
  allows_name R "remove_object" ->
  steps R (__folder_delete bucket basepath c).
Proof using R_refl R_trans.
  intros Hminio Hlist Hremove. unfold __folder_delete.
  apply steps_bind; [now apply steps_objects_list|]. intros objs.
  unfold for_iterator, folder_delete_step. walk.
Qed.

Lemma steps_object_delete bucket basepath (identifier : option string) client :
  (client = None \/ identifier = None -> allows_name R "Minio") ->
  (identifier = None -> allows_name R "list_objects") ->
  allows_name R "remove_object" ->
  steps R (_object_delete bucket basepath identifier client).
Proof using R_refl R_trans.
  intros Hacc Hlist Hremove. unfold _object_delete.
  apply steps_bind; [apply steps_client_or_access; auto|]. intros [curr|];
    [|walk].
  destruct identifier as [name|]; [walk|].
  apply steps_bind; [apply steps_folder_delete; auto|]. intros _. walk.
Qed.

Lemma steps_object_exists bucket basepath (identifier : option string) client :
  (client = None -> allows_name R "Minio") ->
  (identifier = None -> allows_name R "list_objects") ->
  (identifier <> None -> allows_name R "stat_object") ->
  steps R (_object_exists bucket basepath identifier client).
Proof using R_refl R_trans.
  intros Hacc Hlist Hstat. unfold _object_exists.
  apply steps_bind; [now apply steps_client_or_access|]. intros [curr|];
    [|walk].
  apply steps_bind.
  - destruct identifier as [name|].
    + apply steps_bind; [|intros ?; walk].
      apply steps_object_stat; [discriminate|]. now apply Hstat.
    + unfold folder_check.
      apply steps_bind;
        [apply steps_objects_list; [discriminate|auto]|].
      intros objs. apply steps_bind; [|intros ?; walk].
      destruct objs as [[[|obj objs] [e|]]|]; cbn; walk.
  - intros result. apply steps_bind; [|intros ?; walk].
    destruct identifier; cbn; walk.
Qed.

Lemma steps_temp_filepath :
  allows_local R -> steps R (temp_filepath (Store := Store)).
Proof using Type. intros Hl. now apply steps_local. Qed.

Lemma steps_object_store bucket basepath identifier (obj : Any)
    (tags : option Tags) client :
  (client = None -> allows_name R "Minio") -> allows_name R "fput_object" ->
  allows_local R ->
  steps R (_object_store bucket basepath identifier obj tags client).
Proof using R_refl R_trans.
  intros Hacc Hput Hlocal. unfold _object_store.
  apply steps_bind; [now apply steps_client_or_access|]. intros [curr|];
    [|walk].
  apply steps_bind; [now apply steps_temp_filepath|]. intros filepath.
  apply steps_bind.
  { apply steps_local; [assumption|]. intros errors w.
    unfold open_wb_pickle_dump. now destruct (pickle_dump obj). }
  intros _. apply steps_bind.
  { apply steps_with_errors, steps_file_store; [discriminate|assumption]. }
  intros stored. apply steps_bind; [|intros ?; walk].
  destruct (snd stored) as [|msg more]; [|walk].
  apply steps_bind; [|intros ?; walk].
  apply steps_local; [assumption|]. intros errors w.
  unfold unlink. now destruct (files w !! filepath).
Qed.

Lemma steps_object_retrieve bucket basepath identifier client :
  (client = None -> allows_name R "Minio") -> allows_name R "fget_object" ->
  allows_local R ->
  steps R (_object_retrieve bucket basepath identifier client).
Proof using R_refl R_trans.
  intros Hacc Hget Hlocal. unfold _object_retrieve.
  apply steps_bind; [now apply steps_client_or_access|]. intros [curr|];
    [|walk].
  apply steps_bind; [now apply steps_temp_filepath|]. intros filepath.
  apply steps_bind.
  { apply steps_file_retrieve; [discriminate|assumption..]. }
  intros stat. apply steps_bind; [|intros ?; walk].
  destruct stat as [meta|]; [|walk].
  apply steps_bind.
  { apply steps_local; [assumption|]. intros errors w.
    unfold open_rb_pickle_load. now destruct (files w !! filepath). }
  intros loaded. apply steps_bind; [|intros ?; walk].
  apply steps_local; [assumption|]. intros errors w.
  unfold unlink. now destruct (files w !! filepath).
Qed.

End Steps.

Section Touches.

Context {Store Minio Any : Type} `{!MinioAPI Store Minio} `{!Host Any}.

Implicit Types (errors : list string) (w : World Store) (c : Minio).
Implicit Types (bucket basepath name : string) (client : option Minio).

Lemma calls_among_refl (names : list string) w : calls_among names w w.
Proof. exists []. now rewrite app_nil_r. Qed.

Lemma calls_among_trans (names : list string) w1 w2 w3 :
  calls_among names w1 w2 -> calls_among names w2 w3 ->
  calls_among names w1 w3.
Proof.
  intros (evs1 & Ht1 & Hall1) (evs2 & Ht2 & Hall2).
  exists (evs1 ++ evs2). rewrite Ht2, Ht1, app_assoc. split; [reflexivity|].
  now apply Forall_app.
Qed.

Lemma calls_among_allows (names : list string) (method : string) :
  method ∈ names -> allows_name (Store := Store) (calls_among names) method.
Proof.
  intros Hin k Hk w s raised. exists [Event k raised]. split; [reflexivity|].
  repeat constructor. cbn. now rewrite Hk.
Qed.

Lemma calls_among_local (names : list string) :
  allows_local (Store := Store) (calls_among names).
Proof. intros w fs n. exists []. cbn. now rewrite app_nil_r. Qed.

Lemma same_local_refl w : same_local w w.
Proof. now split. Qed.

Lemma same_local_trans w1 w2 w3 :
  same_local w1 w2 -> same_local w2 w3 -> same_local w1 w3.
Proof. intros [Hf1 Hu1] [Hf2 Hu2]. split; congruence. Qed.

Lemma same_local_allows (method : string) :
  allows_name (Store := Store) same_local method.
Proof. intros k Hk w s raised. now split. Qed.

(** Discharges the side conditions on the methods a function may call. *)
Ltac among :=
  repeat match goal with
         | |- _ -> _ => intros ?
         | H : _ = None |- _ => first [discriminate H | rewrite H; clear H]
         | H : _ <> None |- _ => first [now destruct H | clear H]
         | H : _ \/ _ |- _ => clear H
         | |- allows_name (calls_among _) _ =>
             apply calls_among_allows; cbn; set_solver
         | |- allows_local (calls_among _) => apply calls_among_local
         | |- allows_name same_local _ => apply same_local_allows
         end.

(** X1. Each function calls only the methods of the client that belong
    to it, and constructs a client only when it received none; the
    deletion of a folder is the exception: it constructs one for its
    listing whatever it received. *)
Theorem calls_by_operation bucket basepath identifier filepath mimetype
    (obj : Any) (tags : option Tags) (recursive : bool) client :
  steps (calls_among ["Minio"]) (_access (Store := Store)) /\
  steps (calls_among ["Minio"; "bucket_exists"; "make_bucket"])
    (_startup bucket) /\
  steps (calls_among (access_names client ++ ["fput_object"]))
    (_file_store bucket basepath identifier filepath mimetype tags client) /\
  steps (calls_among (access_names client ++ ["fget_object"]))
    (_file_retrieve bucket basepath identifier filepath client) /\
  steps (calls_among (access_names client ++ ["stat_object"]))
    (_object_stat bucket basepath identifier client) /\
  steps (calls_among (access_names client ++ ["stat_object"]))
    (_object_exists bucket basepath (Some identifier) client) /\
  steps (calls_among (access_names client ++ ["list_objects"]))
    (_object_exists bucket basepath None client) /\
  steps (calls_among (access_names client ++ ["fput_object"]))
    (_object_store bucket basepath identifier obj tags client) /\
  steps (calls_among (access_names client ++ ["fget_object"]))
    (_object_retrieve bucket basepath identifier client) /\
  steps (calls_among (access_names client ++ ["remove_object"]))
    (_object_delete bucket basepath (Some identifier) client) /\
  steps (calls_among ["Minio"; "list_objects"; "remove_object"])
    (_object_delete bucket basepath None client) /\
  steps (calls_among (access_names client ++ ["get_object_tags"]))
    (_object_tags_retrieve bucket basepath identifier client) /\
  steps (calls_among (access_names client ++ ["list_objects"]))
    (_objects_list bucket basepath recursive client).
Proof.
  repeat apply conj.
  - apply (steps_client_or_access _ (calls_among_refl _)
             (calls_among_trans _) None). among.
  - apply steps_startup;
      [apply calls_among_refl|apply calls_among_trans|among..].
  - apply steps_file_store;
      [apply calls_among_refl|apply calls_among_trans|among..].
  - apply steps_file_retrieve;
      [apply calls_among_refl|apply calls_among_trans|among..].
  - apply steps_object_stat;
      [apply calls_among_refl|apply calls_among_trans|among..].
  - apply steps_object_exists;
      [apply calls_among_refl|apply calls_among_trans|among..].
  - apply steps_object_exists;
      [apply calls_among_refl|apply calls_among_trans|among..].
  - apply steps_object_store;
      [apply calls_among_refl|apply calls_among_trans|among..].
  - apply steps_object_retrieve;
      [apply calls_among_refl|apply calls_among_trans|among..].
  - apply steps_object_delete;
      [apply calls_among_refl|apply calls_among_trans|..|among].
    + intros [->|Hid]; [among|discriminate Hid].
    + among.
  - apply steps_object_delete;
      [apply calls_among_refl|apply calls_among_trans|among..].
  - apply steps_object_tags_retrieve;
      [apply calls_among_refl|apply calls_among_trans|among..].
  - apply steps_objects_list;
      [apply calls_among_refl|apply calls_among_trans|among..].
Qed.

(** X2. The functions that neither pickle nor download leave the local
    files and the source of [uuid4] as they found them: [_file_store]
    does not remove the file it uploaded. *)
Theorem local_files_untouched bucket basepath (identifier : option string)
    name filepath mimetype (tags : option Tags) (recursive : bool) client c :
  steps same_local (_access (Store := Store)) /\
  steps same_local (_startup bucket) /\
  steps same_local
    (_file_store bucket basepath name filepath mimetype tags client) /\
  steps same_local (_object_stat bucket basepath name client) /\
  steps same_local (_object_exists bucket basepath identifier client) /\
  steps same_local (_object_delete bucket basepath identifier client) /\
  steps same_local (_object_tags_retrieve bucket basepath name client) /\
  steps same_local (_objects_list bucket basepath recursive client) /\
  steps same_local (__folder_delete bucket basepath c).
Proof.
  repeat apply conj.
  - apply (steps_client_or_access _ same_local_refl same_local_trans None).
    among.
  - apply steps_startup; [apply same_local_refl|apply same_local_trans|among..].
  - apply steps_file_store;
      [apply same_local_refl|apply same_local_trans|among..].
  - apply steps_object_stat;
      [apply same_local_refl|apply same_local_trans|among..].
  - apply steps_object_exists;
      [apply same_local_refl|apply same_local_trans|among..].
  - apply steps_object_delete;
      [apply same_local_refl|apply same_local_trans|among..].
  - apply steps_object_tags_retrieve;
      [apply same_local_refl|apply same_local_trans|among..].
  - apply steps_objects_list;
      [apply same_local_refl|apply same_local_trans|among..].
  - apply steps_folder_delete;
      [apply same_local_refl|apply same_local_trans|among..].
Qed.

End Touches.

(** * Edges of the functions *)

Section Edges.

Context {Store Minio Any : Type} `{!MinioAPI Store Minio} `{!Host Any}.

Implicit Types (errors : list string) (w : World Store) (c : Minio).
Implicit Types (bucket basepath name : string) (client : option Minio).

(** ** Without a client *)

Ltac head_symbol t :=
  match t with
  | ?f _ => head_symbol f
  | _ => t
  end.

Lemma access_refused errors w (e : exn) (s : Store) :
  Minio_new (remote w) = (Raise e, s) ->
  client_or_access None errors w =
    Result (Return None) (errors ++ [except_msg e "minio"])
      (mkWorld s (files w) (uuid_seed w)
         (trace w ++ [Event CallMinio (Some e)])).
Proof.
  intros Hnew. cbn.
  unfold _access, try_except, bind, client_call, _s3_log, _s3_except_msg, ret.
  now rewrite Hnew.
Qed.

(** X3. When no client is received and none can be constructed, every
    function returns its value of failure ([False] or [None]), appends
    the one error of the construction and calls nothing else: not even
    the check of a folder raises. *)
Theorem no_client_no_operation bucket basepath (identifier : option string)
    name filepath mimetype (obj : Any) (tags : option Tags)
    (recursive : bool) errors w (e : exn) (s : Store) :
  let errors' := errors ++ [except_msg e "minio"] in
  let w' := mkWorld s (files w) (uuid_seed w)
              (trace w ++ [Event CallMinio (Some e)]) in
  Minio_new (remote w) = (Raise e, s) ->
  _startup bucket errors w = Result (Return false) errors' w' /\
  _file_store bucket basepath name filepath mimetype tags None errors w
  = Result (Return false) errors' w' /\
  _file_retrieve bucket basepath name filepath None errors w
  = Result (Return None) errors' w' /\
  _object_exists bucket basepath identifier None errors w
  = Result (Return false) errors' w' /\
  _object_stat bucket basepath name None errors w
  = Result (Return None) errors' w' /\
  _object_store bucket basepath name obj tags None errors w
  = Result (Return false) errors' w' /\
  _object_retrieve bucket basepath name None errors w
  = Result (Return py_None) errors' w' /\
  _object_delete bucket basepath identifier None errors w
  = Result (Return false) errors' w' /\
  _object_tags_retrieve bucket basepath name None errors w
  = Result (Return None) errors' w' /\
  _objects_list bucket basepath recursive None errors w
  = Result (Return None) errors' w'.
Proof.
  intros errors' w' Hnew.
  pose proof (access_refused errors w e s Hnew) as Hacc.
  repeat apply conj;
    match goal with
    | |- ?f errors w = _ =>
        let h := head_symbol f in unfold h
    end;
    rewrite (bind_return _ _ _ _ _ _ _ Hacc); reflexivity.
Qed.

(** ** Existence of an object *)

(** X4. With an identifier, [_object_exists] is [_object_stat] seen as a
    truth value: it returns [True] exactly when the descriptor was
    obtained, and leaves the error list and the world that [_object_stat]
    leaves. *)
Theorem object_exists_is_stat bucket basepath name client errors w :
  let stat := _object_stat bucket basepath name client errors w in
  _object_exists bucket basepath (Some name) client errors w =
    Result
      (Return (match value stat with
               | Return (Some _) => true
               | _ => false
               end))
      (errors_after stat) (world_after stat).
Proof.
  intros stat. subst stat.
  destruct (client_or_access_returns client errors w) as [[c|] Hgot].
  - rewrite (object_stat_run _ _ _ _ _ _ _ Hgot).
    unfold _object_exists.
    rewrite (bind_return _ _ _ _ _ _ _ (client_or_access_obtained _ _ _ _ Hgot)).
    rewrite bind_run, bind_run.
    rewrite (object_stat_run bucket basepath name (Some c) errors _ c eq_refl).
    cbn [client_or_access ret value errors_after world_after].
    destruct (fst (stat_object c bucket (path_join basepath name) _));
      reflexivity.
  - unfold _object_exists, _object_stat. rewrite !bind_run, Hgot. reflexivity.
Qed.

(** ** Starting up *)

Lemma startup_run bucket errors w c (s0 : Store) :
  Minio_new (remote w) = (Return c, s0) ->
  let probe := bucket_exists c bucket s0 in
  let make := make_bucket c bucket (snd probe) in
  let seen := [Event CallMinio None;
               Event (CallBucketExists bucket) (raised_of (fst probe))] in
  _startup bucket errors w =
    match fst probe with
    | Return true =>
        Result (Return true) errors
          (mkWorld (snd probe) (files w) (uuid_seed w) (trace w ++ seen))
    | Return false =>
        Result
          (Return (match fst make with
                   | Return _ => true
                   | Raise _ => false
                   end))
          (errors ++ match fst make with
                     | Return _ => []
                     | Raise e => [except_msg e "minio"]
                     end)
          (mkWorld (snd make) (files w) (uuid_seed w)
             (trace w ++ seen ++
                [Event (CallMakeBucket bucket) (raised_of (fst make))]))
    | Raise e =>
        Result (Return false) (errors ++ [except_msg e "minio"])
          (mkWorld (snd probe) (files w) (uuid_seed w) (trace w ++ seen))
    end.
Proof.
  intros Hnew probe make seen. subst seen make probe.
  unfold _startup, _access, try_except, bind, client_call, _s3_log,
    _s3_except_msg, ret.
  rewrite Hnew. cbn.
  destruct (bucket_exists c bucket s0) as [[[]|e] s1]; cbn;
    rewrite <- ?app_assoc; cbn; try reflexivity.
  destruct (make_bucket c bucket s1) as [[[]|e] s2]; cbn;
    rewrite <- ?app_assoc, ?app_nil_r; reflexivity.
Qed.

(** X5. With a client constructed, [_startup] creates the bucket only
    when [bucket_exists] answered [False]: a bucket that is there is left
    alone, a failed check is not followed by a creation, and the result
    is [True] exactly when every call made returned; each failure, a
    [NoSuchKey] too, is appended. *)
Theorem startup_creates_only_missing bucket errors w c (s0 : Store) :
  let probe := bucket_exists c bucket s0 in
  let make := make_bucket c bucket (snd probe) in
  let r := _startup bucket errors w in
  let made := filter (fun ev => call_name (ev_call ev) = "make_bucket")
                (trace (world_after r)) in
  let before := filter (fun ev => call_name (ev_call ev) = "make_bucket")
                  (trace w) in
  Minio_new (remote w) = (Return c, s0) ->
  (fst probe = Return true ->
     value r = Return true /\ errors_after r = errors /\
     remote (world_after r) = snd probe /\ made = before) /\
  (fst probe = Return false ->
     (value r = Return true <-> fst make = Return tt) /\
     (forall e, fst make = Raise e ->
        value r = Return false /\
        errors_after r = errors ++ [except_msg e "minio"]) /\
     remote (world_after r) = snd make /\
     made = before ++ [Event (CallMakeBucket bucket) (raised_of (fst make))]) /\
  (forall e, fst probe = Raise e ->
     value r = Return false /\
     errors_after r = errors ++ [except_msg e "minio"] /\
     made = before).
Proof.
  intros probe make r made before Hnew. subst made before r.
  rewrite (startup_run _ _ _ _ _ Hnew). fold probe. fold make.
  assert (Hseen : forall raised,
            filter (fun ev => call_name (ev_call ev) = "make_bucket")
              [Event CallMinio None; Event (CallBucketExists bucket) raised]
            = []).
  { intros raised. cbn. repeat case_decide; try discriminate. reflexivity. }
  assert (Hmade : forall raised,
            filter (fun ev => call_name (ev_call ev) = "make_bucket")
              [Event (CallMakeBucket bucket) raised]
            = [Event (CallMakeBucket bucket) raised]).
  { intros raised. cbn. case_decide; [reflexivity|contradiction]. }
  split; [|split].
  - intros ->. cbn [value errors_after world_after remote trace].
    rewrite filter_app, Hseen, app_nil_r. auto.
  - intros ->. cbn [value errors_after world_after remote trace].
    split; [|split; [|split]].
    + destruct (fst make) as [[]|e]; split; intros [=]; reflexivity.
    + intros e ->. auto.
    + reflexivity.
    + now rewrite !filter_app, Hseen, Hmade.
  - intros e ->. cbn [value errors_after world_after trace].
    rewrite filter_app, Hseen, app_nil_r. auto.
Qed.

(** X6. Starting up twice: when the first [_startup] returned [True]
    and a client can be constructed again, a second run on the world it
    left returns [True], appends nothing and creates nothing; on a
    service where a bucket that was created, or seen, is seen from then
    on, and where constructing a client changes nothing. *)
Theorem startup_twice bucket errors (errors' : list string) w
    (has : Store -> Prop) (c' : Minio) :
  let first := _startup bucket errors w in
  let second := _startup bucket errors' (world_after first) in
  (forall s : Store, snd (Minio_new s) = s) ->
  (forall c s s', make_bucket c bucket s = (Return tt, s') -> has s') ->
  (forall c s s', bucket_exists c bucket s = (Return true, s') -> has s') ->
  (forall c s, has s -> exists s',
     bucket_exists c bucket s = (Return true, s') /\ has s') ->
  value first = Return true ->
  fst (Minio_new (remote (world_after first))) = Return c' ->
  value second = Return true /\
  errors_after second = errors' /\
  trace (world_after second) =
    trace (world_after first) ++
      [Event CallMinio None; Event (CallBucketExists bucket) None].
Proof.
  intros first second Hquiet Hmake Hseen Hkeeps Hfirst Hagain.
  assert (Hhas : has (remote (world_after first))).
  { subst first.
    destruct (Minio_new (remote w)) as [[c|e] s0] eqn:Hc.
    - rewrite (startup_run _ _ _ _ _ Hc) in Hfirst |- *.
      destruct (bucket_exists c bucket s0) as [[[]|e] s1] eqn:Hp;
        cbn in Hfirst |- *; [now apply (Hseen c _ _ Hp)| |discriminate].
      destruct (make_bucket c bucket s1) as [[[]|e] s2] eqn:Hm;
        cbn in Hfirst |- *; [now apply (Hmake c _ _ Hm)|discriminate].
    - unfold _startup in Hfirst.
      rewrite (bind_return _ _ _ _ _ _ _ (access_refused errors w e s0 Hc))
        in Hfirst.
      discriminate Hfirst. }
  assert (Hc' : Minio_new (remote (world_after first))
                = (Return c', remote (world_after first))).
  { specialize (Hquiet (remote (world_after first))).
    destruct (Minio_new (remote (world_after first))) as [o s].
    cbn in Hagain, Hquiet. now subst. }
  destruct (Hkeeps c' _ Hhas) as (s' & Hp' & _).
  subst second. rewrite (startup_run _ _ _ _ _ Hc'), Hp'. cbn. auto.
Qed.

(** ** Deleting a folder with a client at hand *)

(** X7. The deletion of a folder constructs a client for its listing
    even when it received one: that construction is the first call made,
    and when it raises, one error is appended, nothing is listed or
    removed and the result is [False].  The listing goes through the
    client constructed and the removals through the client received: one
    per descriptor the iterator yields.  What the iterator raises is
    caught nowhere: it leaves the call in the place of [False], with no
    entry of its own in the error list. *)
Theorem folder_delete_own_client bucket basepath c errors w :
  let made := Minio_new (remote w) in
  let r := _object_delete bucket basepath None (Some c) errors w in
  (exists evs,
     trace (world_after r) =
     trace w ++ Event CallMinio (raised_of (fst made)) :: evs) /\
  (forall e, fst made = Raise e ->
     r = Result (Return false) (errors ++ [except_msg e "minio"])
           (mkWorld (snd made) (files w) (uuid_seed w)
              (trace w ++ [Event CallMinio (Some e)]))) /\
  (forall lister objs s1,
     fst made = Return lister ->
     list_objects lister bucket basepath true (snd made) = (Return objs, s1) ->
     let evs := fst (removals c bucket (yielded objs) s1) in
     value r = match fault objs with
               | Some e => Raise e
               | None => Return false
               end /\
     errors_after r = errors ++ reports_of evs /\
     trace (world_after r) =
       trace w ++ [Event CallMinio None;
                   Event (CallListObjects bucket basepath true) None] ++ evs).
Proof.
  intros made r. subst r made.
  unfold _object_delete. rewrite bind_run.
  cbn [client_or_access ret value errors_after world_after].
  rewrite bind_run.
  destruct (Minio_new (remote w)) as [[lister|e] s0] eqn:Hnew; cbn [fst snd].
  - assert (Hgot : value (client_or_access None errors w)
                   = Return (Some lister)).
    { cbn. unfold _access, try_except, bind, client_call, _s3_log, ret.
      now rewrite Hnew. }
    assert (Hw : world_after (client_or_access None errors w) =
                 mkWorld s0 (files w) (uuid_seed w)
                   (trace w ++ [Event CallMinio None])).
    { cbn. unfold _access, try_except, bind, client_call, _s3_log, ret.
      now rewrite Hnew. }
    destruct (list_objects lister bucket basepath true s0)
      as [[objs|e] s1] eqn:Hlist.
    + rewrite (folder_delete_run _ _ _ _ _ _ _ _ _ Hnew Hlist).
      cbn [value errors_after world_after trace raised_of].
      repeat apply conj.
      * destruct (fault objs); eexists; cbn; reflexivity.
      * intros e [=].
      * intros lister' objs' s1' [= <-] Hl. rewrite Hlist in Hl.
        injection Hl as <- <-. cbv zeta.
        destruct (fault objs); cbn; auto.
    + unfold __folder_delete. rewrite bind_run.
      rewrite (objects_list_run _ _ _ _ _ _ _ Hgot), Hw.
      cbn [remote files uuid_seed trace]. rewrite Hlist.
      cbn [fst snd value errors_after world_after ret raised_of trace].
      repeat apply conj.
      * eexists. rewrite <- app_assoc. cbn. reflexivity.
      * intros e' [=].
      * intros lister' objs' s1' [= <-] Hl. rewrite Hlist in Hl.
        discriminate Hl.
  - unfold __folder_delete. rewrite bind_run. unfold _objects_list.
    rewrite (bind_return _ _ _ _ _ _ _ (access_refused errors w e s0 Hnew)).
    cbn [ret value errors_after world_after trace raised_of].
    repeat apply conj.
    + eexists. reflexivity.
    + intros e' [= <-]. reflexivity.
    + intros lister objs s1 [=].
Qed.

(** ** Pickled objects: what is left on the local disk *)

(** Obtaining a client touches no local file. *)
Lemma client_or_access_local client errors w :
  same_local w (world_after (client_or_access client errors w)).
Proof.
  apply (steps_client_or_access same_local same_local_refl same_local_trans).
  intros _. apply same_local_allows.
Qed.

Lemma object_retrieve_fetch_failed bucket basepath name client errors w c
    (e : exn) (s' : Store) :
  let got := client_or_access client errors w in
  let w1 := world_after got in
  let filepath := path_join temp_folder (uuid4 (uuid_seed w1) +:+ ".pickle") in
  let ev := Event (CallFgetObject bucket (path_join basepath name) filepath)
              (Some e) in
  value got = Return (Some c) ->
  fget_object c bucket (path_join basepath name) (remote w1) = (Raise e, s') ->
  _object_retrieve bucket basepath name client errors w =
    Result (Return py_None) (errors ++ reports_of [ev])
      (mkWorld s' (files w1) (S (uuid_seed w1)) (trace w1 ++ [ev])).
Proof.
  intros got w1 filepath ev Hgot Hfetch.
  unfold _object_retrieve.
  rewrite (bind_return _ _ _ _ _ _ _ (client_or_access_obtained _ _ _ _ Hgot)).
  fold got. fold w1.
  unfold temp_filepath, uuid_uuid4. unfold bind at 1 2. unfold ret at 1.
  fold filepath. unfold bind at 1.
  rewrite (file_retrieve_run bucket basepath name filepath (Some c) errors _ c
             eq_refl).
  cbn [client_or_access ret world_after remote files uuid_seed trace].
  rewrite Hfetch. reflexivity.
Qed.

Lemma object_retrieve_load_failed bucket basepath name client errors w c
    (meta : MinioObject) (data : bytes) (s' : Store) (e : exn) :
  let got := client_or_access client errors w in
  let w1 := world_after got in
  let filepath := path_join temp_folder (uuid4 (uuid_seed w1) +:+ ".pickle") in
  value got = Return (Some c) ->
  fget_object c bucket (path_join basepath name) (remote w1)
  = (Return (meta, data), s') ->
  pickle_load data = Raise e ->
  _object_retrieve bucket basepath name client errors w =
    Result (Raise e) errors
      (mkWorld s' (<[filepath := data]> (files w1)) (S (uuid_seed w1))
         (trace w1 ++
            [Event (CallFgetObject bucket (path_join basepath name) filepath)
               None])).
Proof.
  intros got w1 filepath Hgot Hfetch Hload.
  unfold _object_retrieve.
  rewrite (bind_return _ _ _ _ _ _ _ (client_or_access_obtained _ _ _ _ Hgot)).
  fold got. fold w1.
  unfold temp_filepath, uuid_uuid4. unfold bind at 1 2. unfold ret at 1.
  fold filepath. unfold bind at 1.
  rewrite (file_retrieve_run bucket basepath name filepath (Some c) errors _ c
             eq_refl).
  cbn [client_or_access ret world_after remote files uuid_seed trace].
  rewrite Hfetch.
  cbn [fst snd raised_of reports_of report_of flat_map ev_raised app].
  rewrite app_nil_r.
  unfold open_rb_pickle_load, bind. cbn [files].
  now rewrite lookup_insert_eq, Hload.
Qed.

(** X8. When the download fails, [_object_retrieve] returns [None] and
    leaves the local files as they were: no temporary file is created,
    none is looked for; a [NoSuchKey] appends nothing, any other failure
    is appended. *)
Theorem object_retrieve_absent bucket basepath name client errors w c
    (e : exn) (s' : Store) :
  let got := client_or_access client errors w in
  let r := _object_retrieve bucket basepath name client errors w in
  value got = Return (Some c) ->
  fget_object c bucket (path_join basepath name) (remote (world_after got))
  = (Raise e, s') ->
  value r = Return py_None /\
  files (world_after r) = files w /\
  (exn_code e = Some "NoSuchKey" -> errors_after r = errors) /\
  (exn_code e <> Some "NoSuchKey" ->
     errors_after r = errors ++ [except_msg e "minio"]).
Proof.
  intros got r Hgot Hfetch. subst r.
  destruct (client_or_access_local client errors w) as [Hfiles _].
  fold got in Hfiles.
  rewrite (object_retrieve_fetch_failed _ _ _ _ _ _ _ _ _ Hgot Hfetch).
  fold got. cbn [value errors_after world_after files].
  repeat split; [exact Hfiles| |]; intros Hcode.
  - rewrite (reports_of_not_found _ _ Hcode). apply app_nil_r.
  - now rewrite (reports_of_other _ _ Hcode).
Qed.

(** X9. When the bytes downloaded are not a pickle, the exception of
    [pickle.load] escapes from [_object_retrieve], nothing is appended to
    the error list, and the temporary file stays on the disk with the
    bytes downloaded. *)
Theorem object_retrieve_unpickling_escapes bucket basepath name client errors
    w c (meta : MinioObject) (data : bytes) (s' : Store) (e : exn) :
  let got := client_or_access client errors w in
  let filepath :=
    path_join temp_folder (uuid4 (uuid_seed (world_after got)) +:+ ".pickle") in
  let r := _object_retrieve bucket basepath name client errors w in
  value got = Return (Some c) ->
  fget_object c bucket (path_join basepath name) (remote (world_after got))
  = (Return (meta, data), s') ->
  pickle_load data = Raise e ->
  value r = Raise e /\
  errors_after r = errors /\
  files (world_after r) !! filepath = Some data.
Proof.
  intros got filepath r Hgot Hfetch Hload. subst r.
  rewrite (object_retrieve_load_failed _ _ _ _ _ _ _ _ _ _ _ Hgot Hfetch Hload).
  fold got. fold filepath. cbn [value errors_after world_after files].
  now rewrite lookup_insert_eq.
Qed.

(** What [_object_store] does up to the upload, when the object cannot be
    pickled. *)
Lemma object_store_unpicklable bucket basepath name (obj : Any)
    (tags : option Tags) client errors w c (e : exn) :
  let got := client_or_access client errors w in
  let w1 := world_after got in
  let filepath := path_join temp_folder (uuid4 (uuid_seed w1) +:+ ".pickle") in
  value got = Return (Some c) ->
  pickle_dump obj = Raise e ->
  _object_store bucket basepath name obj tags client errors w =
    Result (Raise e) errors
      (mkWorld (remote w1) (<[filepath := []]> (files w1)) (S (uuid_seed w1))
         (trace w1)).
Proof.
  intros got w1 filepath Hgot Hdump.
  unfold _object_store.
  rewrite (bind_return _ _ _ _ _ _ _ (client_or_access_obtained _ _ _ _ Hgot)).
  fold got. fold w1.
  unfold temp_filepath, uuid_uuid4. unfold bind at 1 2. unfold ret at 1.
  fold filepath.
  unfold open_wb_pickle_dump. unfold bind at 1. now rewrite Hdump.
Qed.

(** ... and when [Tags] refuses an entry. *)
Lemma object_store_tags_refused bucket basepath name (obj : Any)
    (tags : option Tags) client errors w c (data : bytes) (e : exn) :
  let got := client_or_access client errors w in
  let w1 := world_after got in
  let filepath := path_join temp_folder (uuid4 (uuid_seed w1) +:+ ".pickle") in
  value got = Return (Some c) ->
  pickle_dump obj = Return data ->
  doc_tags_of tags = Raise e ->
  _object_store bucket basepath name obj tags client errors w =
    Result (Raise e) errors
      (mkWorld (remote w1) (<[filepath := data]> (files w1)) (S (uuid_seed w1))
         (trace w1)).
Proof.
  intros got w1 filepath Hgot Hdump Hdoc.
  unfold _object_store.
  rewrite (bind_return _ _ _ _ _ _ _ (client_or_access_obtained _ _ _ _ Hgot)).
  fold got. fold w1.
  unfold temp_filepath, uuid_uuid4. unfold bind at 1 2. unfold ret at 1.
  fold filepath.
  unfold open_wb_pickle_dump. unfold bind at 1. rewrite Hdump.
  unfold with_errors. unfold bind at 1.
  rewrite (file_store_refused _ _ _ _ _ _ (Some c) _ _ c _ eq_refl Hdoc).
  reflexivity.
Qed.

(** X10. When the object cannot be pickled, or when [Tags] refuses one of
    the tags, the exception escapes from [_object_store] before any
    upload: no call is made on the client, nothing is appended, and the
    temporary file opened for the pickle is left on the disk. *)
Theorem object_store_fails_before_upload bucket basepath name (obj : Any)
    (tags : option Tags) client errors w c :
  let got := client_or_access client errors w in
  let w1 := world_after got in
  let filepath := path_join temp_folder (uuid4 (uuid_seed w1) +:+ ".pickle") in
  let r := _object_store bucket basepath name obj tags client errors w in
  value got = Return (Some c) ->
  (forall e, pickle_dump obj = Raise e ->
     value r = Raise e /\ errors_after r = errors /\
     trace (world_after r) = trace w1 /\
     remote (world_after r) = remote w1 /\
     is_Some (files (world_after r) !! filepath)) /\
  (forall data e, pickle_dump obj = Return data -> doc_tags_of tags = Raise e ->
     value r = Raise e /\ errors_after r = errors /\
     trace (world_after r) = trace w1 /\
     remote (world_after r) = remote w1 /\
     files (world_after r) !! filepath = Some data).
Proof.
  intros got w1 filepath r Hgot. subst r. split.
  - intros e Hdump.
    rewrite (object_store_unpicklable _ _ _ _ _ _ _ _ _ _ Hgot Hdump).
    fold got. fold w1. fold filepath.
    cbn [value errors_after world_after trace remote files].
    rewrite lookup_insert_eq. repeat split. now eexists.
  - intros data e Hdump Hdoc.
    rewrite (object_store_tags_refused _ _ _ _ _ _ _ _ _ _ _ Hgot Hdump Hdoc).
    fold got. fold w1. fold filepath.
    cbn [value errors_after world_after trace remote files].
    now rewrite lookup_insert_eq.
Qed.


(** ** Files: from the store and back *)

(** [_file_store] touches no local file. *)
Lemma file_store_local bucket basepath name filepath mimetype
    (tags : option Tags) client errors w :
  same_local w
    (world_after
       (_file_store bucket basepath name filepath mimetype tags client
          errors w)).
Proof.
  apply (steps_file_store same_local same_local_refl same_local_trans);
    intros; apply same_local_allows.
Qed.

(** X12. A file stored by [_file_store] and retrieved by [_file_retrieve]
    from the same bucket, base path and identifier arrives with the
    contents it had: the destination holds the bytes of the source, every
    other local file is as it was, and nothing is appended; on a store
    that hands out the bytes it was given. *)
Theorem file_store_retrieve_roundtrip bucket basepath name source dest mimetype
    (tags : option Tags) client (client' : option Minio) errors
    (errors' : list string) w (c' : Minio) (data : bytes) :
  let put := _file_store bucket basepath name source mimetype tags client
               errors w in
  let got' := client_or_access client' errors' (world_after put) in
  let r := _file_retrieve bucket basepath name dest client' errors'
             (world_after put) in
  files w !! source = Some data ->
  (forall s : Store, snd (Minio_new s) = s) ->
  (forall k b n content ct tg s s',
     fput_object k b n (Some content) ct tg s = (Return tt, s') ->
     exists meta s'', fget_object c' b n s' = (Return (meta, content), s'')) ->
  value put = Return true ->
  value got' = Return (Some c') ->
  (exists meta, value r = Return (Some meta)) /\
  errors_after r = errors' /\
  files (world_after r) !! dest = Some data /\
  (forall other, other <> dest ->
     files (world_after r) !! other = files w !! other).
Proof.
  intros put got' r Hsource Hquiet Hkeeps Hput Hgot'.
  destruct (file_store_true _ _ _ _ _ _ _ _ _ Hput)
    as (c & doc_tags & Hgot & Hdoc & Hup).
  fold put in Hup.
  destruct (client_or_access_local client errors w) as [Hf0 _].
  destruct (file_store_local bucket basepath name source mimetype tags client
              errors w) as [Hf1 _].
  fold put in Hf1.
  destruct (client_or_access_local client' errors' (world_after put))
    as [Hf2 _].
  rewrite Hf0, Hsource in Hup.
  destruct (Hkeeps _ _ _ _ _ _ _ _ Hup) as (meta & s'' & Hfetch).
  rewrite <- (client_or_access_remote client' errors' (world_after put) Hquiet)
    in Hfetch.
  subst r got'. rewrite (file_retrieve_run _ _ _ _ _ _ _ _ Hgot').
  rewrite Hfetch.
  cbn [value errors_after world_after files fst snd raised_of].
  rewrite Hf2, Hf1. repeat split.
  - now eexists.
  - apply app_nil_r.
  - apply lookup_insert_eq.
  - intros other Hne. now apply lookup_insert_ne.
Qed.

(** ** Tags of an object *)

(** X13. [_object_tags_retrieve] returns the tags of the object when it
    has some, and [None] in every other case: an object without tags, an
    empty set of tags and an object that is not there are told apart by
    nothing, each leaving the error list as it was; any other failure is
    appended. *)
Theorem object_tags_retrieve_cases bucket basepath name client errors w c :
  let got := client_or_access client errors w in
  let query := get_object_tags c bucket (path_join basepath name)
                 (remote (world_after got)) in
  let r := _object_tags_retrieve bucket basepath name client errors w in
  value got = Return (Some c) ->
  (forall tags : Tags, fst query = Return (Some tags) -> tags <> ∅ ->
     value r = Return (Some tags) /\ errors_after r = errors) /\
  (fst query = Return None \/ fst query = Return (Some ∅) ->
     value r = Return None /\ errors_after r = errors) /\
  (forall e, fst query = Raise e ->
     value r = Return None /\
     (exn_code e = Some "NoSuchKey" -> errors_after r = errors) /\
     (exn_code e <> Some "NoSuchKey" ->
        errors_after r = errors ++ [except_msg e "minio"])).
Proof.
  intros got query r Hgot. subst r.
  rewrite (object_tags_retrieve_run _ _ _ _ _ _ _ Hgot).
  fold got. fold query. cbn [value errors_after].
  split; [|split].
  - intros tags -> Hne. cbn [raised_of].
    rewrite (tags_to_dict_some tags Hne). split; [reflexivity|apply app_nil_r].
  - intros [-> | ->]; cbn [raised_of]; (split; [|apply app_nil_r]).
    + reflexivity.
    + unfold tags_to_dict. now rewrite map_size_empty.
  - intros e ->. cbn [raised_of]. split; [reflexivity|].
    split; intros Hcode.
    + rewrite (reports_of_not_found _ _ Hcode). apply app_nil_r.
    + now rewrite (reports_of_other _ _ Hcode).
Qed.

(** ** Failures that are always reported *)

(** X14. The upload knows no benign failure: whatever [fput_object]
    raises, an exception with the code [NoSuchKey] included, is appended
    to the error list, and the result is [False].  The listing reports
    no failure of its iterator: [_objects_list] hands over the iterator
    that the call returned, as it is, and appends nothing, whatever fault
    the iterator holds for the one who reads it. *)
Theorem upload_reports_listing_defers bucket basepath name filepath
    mimetype (tags : option Tags) (recursive : bool) client errors w c :
  let got := client_or_access client errors w in
  let w1 := world_after got in
  let listed := _objects_list bucket basepath recursive client errors w in
  let stored := _file_store bucket basepath name filepath mimetype tags client
                  errors w in
  value got = Return (Some c) ->
  (forall objs,
     fst (list_objects c bucket basepath recursive (remote w1)) = Return objs ->
     value listed = Return (Some objs) /\
     errors_after listed = errors) /\
  (forall e doc_tags,
     doc_tags_of tags = Return doc_tags ->
     fst (fput_object c bucket (path_join basepath name)
            (files w1 !! filepath) mimetype doc_tags (remote w1)) = Raise e ->
     value stored = Return false /\
     errors_after stored = errors ++ [except_msg e "minio"]).
Proof.
  intros got w1 listed stored Hgot. split.
  - intros objs Hl. subst listed.
    rewrite (objects_list_run _ _ _ _ _ _ _ Hgot). fold got. fold w1.
    rewrite Hl. cbn [value errors_after]. now rewrite app_nil_r.
  - intros e doc_tags Hdoc He. subst stored.
    rewrite (file_store_run _ _ _ _ _ _ _ _ _ _ _ Hgot Hdoc). fold got. fold w1.
    now rewrite He.
Qed.

(** ** Existence after a store and after a deletion *)

Lemma object_exists_named_run bucket basepath name client errors w c :
  let got := client_or_access client errors w in
  let target := path_join basepath name in
  let stat := stat_object c bucket target (remote (world_after got)) in
  let ev := Event (CallStatObject bucket target) (raised_of (fst stat)) in
  value got = Return (Some c) ->
  _object_exists bucket basepath (Some name) client errors w =
    Result
      (Return (match fst stat with
               | Return _ => true
               | Raise _ => false
               end))
      (errors ++ reports_of [ev])
      (mkWorld (snd stat) (files (world_after got))
         (uuid_seed (world_after got)) (trace (world_after got) ++ [ev])).
Proof.
  intros got target stat ev Hgot.
  unfold _object_exists.
  rewrite (bind_return _ _ _ _ _ _ _ (client_or_access_obtained _ _ _ _ Hgot)).
  fold got. rewrite bind_run, bind_run.
  rewrite (object_stat_run bucket basepath name (Some c) errors _ c eq_refl).
  cbn [client_or_access ret value errors_after world_after].
  fold target. fold stat. fold ev.
  destruct (fst stat); reflexivity.
Qed.

(** [_object_delete] returns [True] only when it obtained a client and
    the removal returned. *)
Lemma object_delete_true bucket basepath name client errors w :
  let got := client_or_access client errors w in
  let del := _object_delete bucket basepath (Some name) client errors w in
  value del = Return true ->
  exists c,
    value got = Return (Some c) /\
    remove_object c bucket (path_join basepath name) (remote (world_after got))
    = (Return tt, remote (world_after del)).
Proof.
  intros got del. subst del.
  destruct (client_or_access_returns client errors w) as [[c|] Hgot].
  - rewrite (object_delete_run _ _ _ _ _ _ _ Hgot). fold got.
    cbn [value world_after remote].
    destruct (remove_object c bucket (path_join basepath name)
                (remote (world_after got))) as [[[]|e] s] eqn:Hrm; cbn;
      [|intros [=]].
    intros _. exists c. fold got in Hgot. auto.
  - unfold _object_delete. rewrite bind_run, Hgot. cbn. intros [=].
Qed.

(** X15. After a deletion that returned [True], [_object_exists] and
    [_object_stat] find nothing at the same bucket, base path and
    identifier, and say so without an error: [False] and [None], the
    error list untouched; on a store where an object removed is reported
    missing with the code [NoSuchKey]. *)
Theorem deleted_object_is_gone bucket basepath name client
    (client' : option Minio) errors (errors' : list string) w (c' : Minio) :
  let del := _object_delete bucket basepath (Some name) client errors w in
  let got' := client_or_access client' errors' (world_after del) in
  let found := _object_exists bucket basepath (Some name) client' errors'
                 (world_after del) in
  let stat := _object_stat bucket basepath name client' errors'
                (world_after del) in
  (forall s : Store, snd (Minio_new s) = s) ->
  (forall k b n s s',
     remove_object k b n s = (Return tt, s') ->
     exists e s'', stat_object c' b n s' = (Raise e, s'') /\
                   exn_code e = Some "NoSuchKey") ->
  value del = Return true ->
  value got' = Return (Some c') ->
  (value found = Return false /\ errors_after found = errors') /\
  (value stat = Return None /\ errors_after stat = errors').
Proof.
  intros del got' found stat Hquiet Hgone Hdel Hgot'.
  destruct (object_delete_true _ _ _ _ _ _ Hdel) as (c & Hgot & Hrm).
  fold del in Hrm.
  destruct (Hgone _ _ _ _ _ Hrm) as (e & s'' & Hstat & Hcode).
  rewrite <- (client_or_access_remote client' errors' (world_after del) Hquiet)
    in Hstat.
  subst found stat got'.
  rewrite (object_exists_named_run _ _ _ _ _ _ _ Hgot').
  rewrite (object_stat_run _ _ _ _ _ _ _ Hgot').
  rewrite Hstat. cbn [value errors_after fst raised_of].
  rewrite (reports_of_not_found _ _ Hcode), app_nil_r. auto.
Qed.

(** X16. After a [_file_store] that returned [True], [_object_exists]
    returns [True] for the same bucket, base path and identifier and
    appends nothing; on a store that knows the objects it was given. *)
Theorem stored_file_exists bucket basepath name filepath mimetype
    (tags : option Tags) client (client' : option Minio) errors
    (errors' : list string) w (c' : Minio) :
  let put := _file_store bucket basepath name filepath mimetype tags client
               errors w in
  let got' := client_or_access client' errors' (world_after put) in
  let found := _object_exists bucket basepath (Some name) client' errors'
                 (world_after put) in
  (forall s : Store, snd (Minio_new s) = s) ->
  (forall k b n content ct tg s s',
     fput_object k b n content ct tg s = (Return tt, s') ->
     exists meta s'', stat_object c' b n s' = (Return meta, s'')) ->
  value put = Return true ->
  value got' = Return (Some c') ->
  value found = Return true /\ errors_after found = errors'.
Proof.
  intros put got' found Hquiet Hknows Hput Hgot'.
  destruct (file_store_true _ _ _ _ _ _ _ _ _ Hput)
    as (c & doc_tags & Hgot & Hdoc & Hup).
  fold put in Hup.
  destruct (Hknows _ _ _ _ _ _ _ _ Hup) as (meta & s'' & Hstat).
  rewrite <- (client_or_access_remote client' errors' (world_after put) Hquiet)
    in Hstat.
  subst found got'.
  rewrite (object_exists_named_run _ _ _ _ _ _ _ Hgot').
  rewrite Hstat. cbn [value errors_after fst raised_of].
  split; [reflexivity|apply app_nil_r].
Qed.

End Edges.

(** * The edges on the in-memory store *)

Lemma memory_bucket_made (c : unit) (bucket : string) (s s' : Memory.store) :
  make_bucket c bucket s = (Return tt, s') ->
  is_Some (Memory.buckets s' !! bucket).
Proof.
  cbn. destruct (Memory.buckets s !! bucket); intros [= <-]. cbn.
  rewrite lookup_insert_eq. now eexists.
Qed.

Lemma memory_bucket_seen (c : unit) (bucket : string) (s s' : Memory.store) :
  bucket_exists c bucket s = (Return true, s') ->
  is_Some (Memory.buckets s' !! bucket).
Proof. cbn. intros [= Hb <-]. now apply bool_decide_eq_true in Hb. Qed.

Lemma memory_bucket_stays (c : unit) (bucket : string) (s : Memory.store) :
  is_Some (Memory.buckets s !! bucket) ->
  exists s', bucket_exists c bucket s = (Return true, s') /\
             is_Some (Memory.buckets s' !! bucket).
Proof.
  intros Hb. exists s. split; [|exact Hb]. cbn.
  now rewrite (bool_decide_eq_true_2 _ Hb).
Qed.

Lemma memory_removed_gone (k : unit) (b n : string) (s s' : Memory.store) :
  remove_object k b n s = (Return tt, s') ->
  exists e s'', stat_object tt b n s' = (Raise e, s'') /\
                exn_code e = Some "NoSuchKey".
Proof.
  cbn. destruct (Memory.buckets s !! b) as [objs|] eqn:Hb; [|intros [=]].
  destruct (Memory.is_denied s n); [intros [=]|].
  destruct (objs !! n); intros [= <-]. cbn.
  rewrite lookup_insert_eq, lookup_delete_eq. eauto.
Qed.

Lemma memory_knows (k : unit) (b n : string) (content : option bytes)
    (ct : string) (tg : option Tags) (s s' : Memory.store) :
  fput_object k b n content ct tg s = (Return tt, s') ->
  exists meta s'', stat_object tt b n s' = (Return meta, s'').
Proof.
  cbn. destruct content as [data|]; [|intros [=]].
  destruct (Memory.buckets s !! b) as [objs|] eqn:Hb; [|intros [=]].
  destruct (Memory.is_denied s n); intros [= <-]. cbn.
  rewrite !lookup_insert_eq. eauto.
Qed.

(** Starting up on a store without buckets creates [docs]. *)
Lemma startup_creates_only_missing_witness :
  let r := _startup "docs" [] (Memory.world Cases.blank) in
  value r = Return true /\
  map ev_call (trace (world_after r)) =
    [CallMinio; CallBucketExists "docs"; CallMakeBucket "docs"].
Proof.
  intros r.
  assert (Hnew : Minio_new (remote (Memory.world Cases.blank))
                 = (Return tt, Cases.blank)) by (vm_compute; reflexivity).
  destruct (startup_creates_only_missing "docs" [] (Memory.world Cases.blank)
              tt Cases.blank Hnew) as (_ & Hmissing & _).
  destruct Hmissing as (Hv & _); [vm_compute; reflexivity|].
  split; [apply Hv; vm_compute; reflexivity|].
  vm_compute. reflexivity.
Defined.

(** Starting up twice on that store: the second run creates nothing. *)
Lemma startup_twice_witness :
  let first := _startup "docs" [] (Memory.world Cases.blank) in
  let second := _startup "docs" [] (world_after first) in
  value first = Return true /\
  value second = Return true /\
  map ev_call (trace (world_after second)) =
    [CallMinio; CallBucketExists "docs"; CallMakeBucket "docs";
     CallMinio; CallBucketExists "docs"].
Proof.
  intros first second.
  split; [vm_compute; reflexivity|].
  destruct (startup_twice "docs" [] [] (Memory.world Cases.blank)
              (fun s => is_Some (Memory.buckets s !! "docs")) tt)
    as (Hv & _ & Ht).
  - apply memory_new_quiet.
  - intros c s s'. apply memory_bucket_made.
  - intros c s s'. apply memory_bucket_seen.
  - intros c s. apply memory_bucket_stays.
  - vm_compute. reflexivity.
  - vm_compute. reflexivity.
  - split; [exact Hv|]. subst second first. rewrite Ht.
    vm_compute. reflexivity.
Defined.

(** With the service out of reach and no client at hand, the check of a
    folder returns [False] with the one error of the construction. *)
Lemma no_client_no_operation_witness :
  _object_exists "docs" "reports/2024/" None None []
    (Memory.world Cases.offline)
  = Result (Return false) ["Error accessing 'minio': invalid endpoint"]
      (mkWorld Cases.offline ∅ 0
         [Event CallMinio (Some (Memory.ValueError "invalid endpoint"))]).
Proof.
  assert (Hnew : Minio_new (remote (Memory.world Cases.offline))
                 = (Raise (Memory.ValueError "invalid endpoint"),
                    Cases.offline))
    by (vm_compute; reflexivity).
  destruct (no_client_no_operation "docs" "reports/2024/" None "q1.pdf"
              "/tmp/q1.pdf" "application/pdf" Memory.PyNone None false []
              (Memory.world Cases.offline) _ _ Hnew)
    as (_ & _ & _ & Hexists & _).
  exact Hexists.
Defined.

(** With the service out of reach, the deletion of a folder removes
    nothing although it received a client.  In a bucket that does not
    exist, the iterator of the listing raises at the first turn of the
    loop: its exception leaves the call and the error list is as it was. *)
Lemma folder_delete_own_client_witness :
  let r := _object_delete "nowhere" "reports" None (Some tt) ["prior"]
             (Memory.world Memory.docs) in
  _object_delete "docs" "reports" None (Some tt) []
    (Memory.world Cases.offline)
  = Result (Return false) ["Error accessing 'minio': invalid endpoint"]
      (mkWorld Cases.offline ∅ 0
         [Event CallMinio (Some (Memory.ValueError "invalid endpoint"))]) /\
  value r = Raise (Memory.S3Error "NoSuchBucket") /\
  errors_after r = ["prior"] /\
  trace (world_after r) =
    [Event CallMinio None; Event (CallListObjects "nowhere" "reports" true) None].
Proof.
  intros r. split.
  - destruct (folder_delete_own_client "docs" "reports" tt []
                (Memory.world Cases.offline)) as (_ & Hrefused & _).
    apply (Hrefused (Memory.ValueError "invalid endpoint")).
    vm_compute. reflexivity.
  - destruct (folder_delete_own_client "nowhere" "reports" tt ["prior"]
                (Memory.world Memory.docs)) as (_ & _ & Hlisted).
    destruct (Hlisted tt (Listing [] (Some (Memory.S3Error "NoSuchBucket")))
                Memory.docs) as (Hv & He & Ht);
      [vm_compute; reflexivity..|].
    split; [exact Hv|]. split; [exact He|exact Ht].
Defined.

(** Retrieving a value that was never stored. *)
Lemma object_retrieve_absent_witness :
  let r := _object_retrieve "docs" "vals" "x" (Some tt) []
             (Memory.world Memory.docs) in
  value r = Return Memory.PyNone /\
  files (world_after r) = ∅ /\
  errors_after r = [].
Proof.
  intros r.
  destruct (object_retrieve_absent "docs" "vals" "x" (Some tt) []
              (Memory.world Memory.docs) tt (Memory.S3Error "NoSuchKey")
              Memory.docs eq_refl)
    as (Hv & Hf & He & _); [vm_compute; reflexivity|].
  split; [exact Hv|]. split; [exact Hf|]. now apply He.
Defined.

(** Retrieving bytes that are not a pickle. *)
Lemma object_retrieve_unpickling_escapes_witness :
  let r := _object_retrieve "docs" "vals" "bad" (Some tt) []
             (Memory.world Cases.plain) in
  value r = Raise (Exn "UnpicklingError" None "invalid load key") /\
  errors_after r = [] /\
  files (world_after r) !! "/tmp/uuid-0.pickle"
  = Some (Memory.bytes_of_string "?").
Proof.
  intros r.
  destruct (object_retrieve_unpickling_escapes "docs" "vals" "bad" (Some tt)
              [] (Memory.world Cases.plain) tt (Object "docs" "vals/bad" 1)
              (Memory.bytes_of_string "?") Cases.plain
              (Exn "UnpicklingError" None "invalid load key") eq_refl)
    as (Hv & He & Hf); [vm_compute; reflexivity..|].
  split; [exact Hv|]. split; [exact He|exact Hf].
Defined.

(** Storing a value with eleven tags. *)
Lemma object_store_fails_before_upload_witness :
  let r := _object_store "docs" "vals" "x" (Memory.PyStr "hello")
             (Some Cases.eleven) (Some tt) [] (Memory.world Memory.docs) in
  value r = Raise (Memory.ValueError "only 10 object tags are allowed") /\
  errors_after r = [] /\
  trace (world_after r) = [] /\
  files (world_after r) !! "/tmp/uuid-0.pickle"
  = Some (Memory.dump (Memory.PyStr "hello")).
Proof.
  intros r.
  assert (Hdump : pickle_dump (Memory.PyStr "hello")
                  = Return (Memory.dump (Memory.PyStr "hello")))
    by reflexivity.
  assert (Hdoc : doc_tags_of (Some Cases.eleven)
                 = Raise (Memory.ValueError "only 10 object tags are allowed"))
    by (vm_compute; reflexivity).
  destruct (object_store_fails_before_upload "docs" "vals" "x"
              (Memory.PyStr "hello") (Some Cases.eleven) (Some tt) []
              (Memory.world Memory.docs) tt eq_refl) as [_ Hrefused].
  destruct (Hrefused _ _ Hdump Hdoc) as (Hv & He & Ht & _ & Hf).
  auto.
Defined.


(** The local copy of the first report stored under [copies] and fetched
    back to another place. *)
Lemma file_store_retrieve_roundtrip_witness :
  let put := _file_store "docs" "copies" "q1.pdf" "/tmp/q1.pdf"
               "application/pdf" None None [] Memory.desk in
  let r := _file_retrieve "docs" "copies" "q1.pdf" "/tmp/back.pdf" None []
             (world_after put) in
  value put = Return true /\
  files (world_after r) !! "/tmp/back.pdf" = Some (Memory.bytes_of_string "q1") /\
  files (world_after r) !! "/tmp/q1.pdf" = Some (Memory.bytes_of_string "q1") /\
  errors_after r = [].
Proof.
  intros put r.
  assert (Hput : value put = Return true) by (vm_compute; reflexivity).
  split; [exact Hput|].
  destruct (file_store_retrieve_roundtrip "docs" "copies" "q1.pdf"
              "/tmp/q1.pdf" "/tmp/back.pdf" "application/pdf" None None None
              [] [] Memory.desk tt (Memory.bytes_of_string "q1"))
    as (_ & He & Hdest & Hrest).
  - vm_compute. reflexivity.
  - apply memory_new_quiet.
  - apply memory_keeps_data.
  - exact Hput.
  - vm_compute. reflexivity.
  - split; [exact Hdest|]. split; [|exact He].
    subst r put. rewrite Hrest by discriminate. vm_compute. reflexivity.
Defined.

(** The note without tags and a note that is not there: [None] twice,
    and no error. *)
Lemma object_tags_retrieve_cases_witness :
  let tagless := _object_tags_retrieve "docs" "vals" "bad" (Some tt) []
                   (Memory.world Cases.plain) in
  let missing := _object_tags_retrieve "docs" "vals" "none" (Some tt) []
                   (Memory.world Cases.plain) in
  (value tagless = Return None /\ errors_after tagless = []) /\
  (value missing = Return None /\ errors_after missing = []).
Proof.
  intros tagless missing. split.
  - destruct (object_tags_retrieve_cases "docs" "vals" "bad" (Some tt) []
                (Memory.world Cases.plain) tt eq_refl) as (_ & Hnone & _).
    apply Hnone. left. vm_compute. reflexivity.
  - destruct (object_tags_retrieve_cases "docs" "vals" "none" (Some tt) []
                (Memory.world Cases.plain) tt eq_refl) as (_ & _ & Hraise).
    destruct (Hraise (Memory.S3Error "NoSuchKey")) as (Hv & He & _);
      [vm_compute; reflexivity|].
    split; [exact Hv|]. now apply He.
Defined.

(** Listing a bucket that is not there: the iterator is handed over and
    nothing is appended.  Uploading to it: the failure is appended. *)
Lemma upload_reports_listing_defers_witness :
  let listed := _objects_list "nowhere" "reports" true (Some tt) []
                  (Memory.world Memory.docs) in
  let stored := _file_store "nowhere" "reports" "q1.pdf" "/tmp/q1.pdf"
                  "application/pdf" None (Some tt) [] Memory.desk in
  (value listed
   = Return (Some (Listing [] (Some (Memory.S3Error "NoSuchBucket")))) /\
   errors_after listed = []) /\
  (value stored = Return false /\
   errors_after stored = ["Error accessing 'minio': NoSuchBucket"]).
Proof.
  intros listed stored. split.
  - destruct (upload_reports_listing_defers "nowhere" "reports" "q1.pdf"
                "/tmp/q1.pdf" "application/pdf" None true (Some tt) []
                (Memory.world Memory.docs) tt eq_refl) as [Hlist _].
    apply Hlist. vm_compute. reflexivity.
  - destruct (upload_reports_listing_defers "nowhere" "reports" "q1.pdf"
                "/tmp/q1.pdf" "application/pdf" None true (Some tt) []
                Memory.desk tt eq_refl) as [_ Hput].
    apply (Hput (Memory.S3Error "NoSuchBucket") None);
      [reflexivity|vm_compute; reflexivity].
Defined.

(** The first report, deleted: it is found no more, and no error says so. *)
Lemma deleted_object_is_gone_witness :
  let del := _object_delete "docs" "reports/2024" (Some "q1.pdf") (Some tt) []
               (Memory.world Memory.docs) in
  let found := _object_exists "docs" "reports/2024" (Some "q1.pdf") None []
                 (world_after del) in
  value del = Return true /\
  value found = Return false /\ errors_after found = [].
Proof.
  intros del found.
  assert (Hdel : value del = Return true) by (vm_compute; reflexivity).
  split; [exact Hdel|].
  destruct (deleted_object_is_gone "docs" "reports/2024" "q1.pdf" (Some tt)
              None [] [] (Memory.world Memory.docs) tt) as [Hfound _].
  - apply memory_new_quiet.
  - apply memory_removed_gone.
  - exact Hdel.
  - vm_compute. reflexivity.
  - exact Hfound.
Defined.

(** The local copy of the first report, stored: it exists. *)
Lemma stored_file_exists_witness :
  let put := _file_store "docs" "copies" "q1.pdf" "/tmp/q1.pdf"
               "application/pdf" None None [] Memory.desk in
  let found := _object_exists "docs" "copies" (Some "q1.pdf") None []
                 (world_after put) in
  value put = Return true /\
  value found = Return true /\ errors_after found = [].
Proof.
  intros put found.
  assert (Hput : value put = Return true) by (vm_compute; reflexivity).
  split; [exact Hput|].
  apply (stored_file_exists "docs" "copies" "q1.pdf" "/tmp/q1.pdf"
           "application/pdf" None None None [] [] Memory.desk tt).
  - apply memory_new_quiet.
  - apply memory_knows.
  - exact Hput.
  - vm_compute. reflexivity.
Defined.
